(** * postedworkers-automation: a shallow embedding of the helper layer

    The repository drives a browser through Playwright.  This development
    embeds the helpers of [utils/env], [utils/date], [utils/pdok],
    [utils/wait] and [utils/elements] and states the properties of the
    specification about them.

    - JavaScript strings are sequences of UTF-16 code units ([list N]).
    - [process.env] is a finite map from names to strings, read through
      [Object.prototype] for the names it does not define.
    - Exceptions are explicit: a computation returns [Ok v] or [Throw e].
    - The browser is an interface ([Browser]): every awaited Playwright call
      is a transition of an abstract page state that either resolves or
      rejects.  The helpers thread that state and keep a log of the calls
      they issue, so that statements such as "this locator is never
      touched" can be made about the log. *)

From Stdlib Require Import String Ascii ZArith NArith List DecimalString.
From Stdlib Require Import Floats.SpecFloat.
From stdpp Require Import base option list gmap.

Set Warnings "-register-all".
Local Open Scope N_scope.

(** ** JavaScript strings and exceptions *)

Abbreviation jsstring := (list N).

(** An ASCII literal of the source, as code units. *)
Definition lit (s : string) : jsstring :=
  List.map N_of_ascii (list_ascii_of_string s).
Arguments lit : simpl never.

(** The double-quote character inside template literals. *)
Definition dquote : jsstring := [34].

Inductive exn : Type :=
  | Error (message : jsstring)        (* new Error(message) *)
  | TypeError (message : jsstring)
  | URIError (message : jsstring)
  | Rejected (reason : jsstring).     (* a rejected Playwright promise *)

Inductive Result (A : Type) : Type :=
  | Ok (a : A)
  | Throw (e : exn).
Arguments Ok {A} a.
Arguments Throw {A} e.

(** ** [String.prototype.trim] *)

(** ECMAScript WhiteSpace and LineTerminator code units. *)
Definition is_ws (c : N) : bool :=
  (c =? 9) || (c =? 10) || (c =? 11) || (c =? 12) || (c =? 13) || (c =? 32)
  || (c =? 160) || (c =? 5760) || ((8192 <=? c) && (c <=? 8202))
  || (c =? 8232) || (c =? 8233) || (c =? 8239) || (c =? 8287)
  || (c =? 12288) || (c =? 65279).

Fixpoint trim_start (s : jsstring) : jsstring :=
  match s with
  | [] => []
  | c :: r => if is_ws c then trim_start r else s
  end.

Definition trim_end (s : jsstring) : jsstring :=
  reverse (trim_start (reverse s)).

Definition trim (s : jsstring) : jsstring := trim_end (trim_start s).

(** JavaScript truthiness of a string: non-empty. *)
Definition truthy_string (s : jsstring) : bool :=
  match s with [] => false | _ => true end.

(** ** utils/env: [requireEnv] *)

(** [process.env] is read as any object is: its own properties are the
    variables of the environment, each a string, and a name it does not
    define is looked up in [Object.prototype].  These are the names found
    there; each holds a function, and [__proto__] the prototype object
    itself, so every one of them is truthy and has no [trim]. *)
Definition object_prototype_names : list jsstring :=
  [ lit "constructor"; lit "hasOwnProperty"; lit "isPrototypeOf";
    lit "propertyIsEnumerable"; lit "toLocaleString"; lit "toString";
    lit "valueOf"; lit "__proto__"; lit "__defineGetter__";
    lit "__defineSetter__"; lit "__lookupGetter__"; lit "__lookupSetter__" ].

(** What [process.env[name]] evaluates to. *)
Inductive env_value : Type :=
  | EnvString (v : jsstring)      (* a variable of the environment *)
  | EnvInherited                  (* a member of Object.prototype *)
  | EnvUndefined.

Definition env_get (env : gmap jsstring jsstring) (name : jsstring) : env_value :=
  match env !! name with
  | Some v => EnvString v
  | None =>
      if bool_decide (name ∈ object_prototype_names) then EnvInherited
      else EnvUndefined
  end.

(** [!value] holds for [undefined] and for the empty string; on an
    inherited member it does not, and the call [value.trim()] then throws
    the TypeError of calling [undefined]. *)
Definition requireEnv (env : gmap jsstring jsstring) (name : jsstring)
  : Result jsstring :=
  let value := env_get env name in
  match value with
  | EnvUndefined => Throw (Error (lit "Missing required env var: " ++ name))
  | EnvInherited => Throw (TypeError (lit "value.trim is not a function"))
  | EnvString v =>
      if negb (truthy_string v) || negb (truthy_string (trim v))
      then Throw (Error (lit "Missing required env var: " ++ name))
      else Ok (trim v)
  end.

(** ** [formatDateToDutchLocale] (utils/date; the text is that of
    tests/e2e.spec.ts) *)

(** [s.replace(/c/g, rep)] for a pattern that matches the one literal code
    unit [c]: scan from the left, emit the replacement at every match and
    copy every other code unit. *)
Fixpoint replace_all_char (c : N) (rep : jsstring) (s : jsstring) : jsstring :=
  match s with
  | [] => []
  | x :: r =>
      if x =? c then rep ++ replace_all_char c rep r
      else x :: replace_all_char c rep r
  end.

Definition dot : N := 46.
Definition dash : N := 45.

(** [dotDate.replace(/\./g, '-')] *)
Definition formatDateToDutchLocale (dotDate : jsstring) : jsstring :=
  replace_all_char dot [dash] dotDate.

(** The specification's reading: the same positions, every dot turned into
    a dash. *)
Definition dots_to_dashes_at (s t : jsstring) : Prop :=
  length t = length s ∧
  ∀ i x, s !! i = Some x → t !! i = Some (if x =? dot then dash else x).

(** ** JavaScript values, as [response.json()] produces them *)

Inductive value : Type :=
  | VUndefined
  | VNull
  | VBool (b : bool)
  | VNumber (x : spec_float)
  | VString (s : jsstring)
  | VArray (items : list value)
  | VObject (fields : list (jsstring * value)).

(** ToBoolean. *)
Definition truthy (v : value) : bool :=
  match v with
  | VUndefined | VNull => false
  | VBool b => b
  | VNumber (S754_zero _) | VNumber S754_nan => false
  | VNumber _ => true
  | VString s => truthy_string s
  | VArray _ | VObject _ => true
  end.

(** [a || b] *)
Definition or_js (a b : value) : value := if truthy a then a else b.

Fixpoint assoc (k : jsstring) (fields : list (jsstring * value)) : option value :=
  match fields with
  | [] => None
  | (k', v) :: r => if bool_decide (k' = k) then Some v else assoc k r
  end.

(** [v?.k] for a name [k] that no built-in prototype defines (the names
    read in this file are [response], [docs], [postcode], [postalcode] and
    [pc6]): the own property of an object, [undefined] on everything else,
    [null] and [undefined] included. *)
Definition opt_get (v : value) (k : jsstring) : value :=
  match v with
  | VObject fields => default VUndefined (assoc k fields)
  | _ => VUndefined
  end.

Definition is_high_surrogate (c : N) : bool := (55296 <=? c) && (c <=? 56319).
Definition is_low_surrogate (c : N) : bool := (56320 <=? c) && (c <=? 57343).

(** The string iterator yields code points: a surrogate pair is one item. *)
Fixpoint code_points (s : jsstring) : list jsstring :=
  match s with
  | [] => []
  | c :: r =>
      match r with
      | lo :: r' =>
          if is_high_surrogate c && is_low_surrogate lo
          then [c; lo] :: code_points r'
          else [c] :: code_points r
      | [] => [[c]]
      end
  end.

(** What [for (const doc of docs)] iterates over. *)
Definition iterate (docs : value) : Result (list value) :=
  match docs with
  | VArray items => Ok items
  | VString s => Ok (List.map VString (code_points s))
  | _ => Throw (TypeError (lit "docs is not iterable"))
  end.

(** ** [encodeURIComponent] *)

Definition is_uri_unreserved (c : N) : bool :=
  ((65 <=? c) && (c <=? 90)) || ((97 <=? c) && (c <=? 122))
  || ((48 <=? c) && (c <=? 57))
  || (c =? 45) || (c =? 95) || (c =? 46) || (c =? 33) || (c =? 126)
  || (c =? 42) || (c =? 39) || (c =? 40) || (c =? 41).

Definition hex_digit (d : N) : N := if d <? 10 then 48 + d else 55 + d.

Definition percent (octet : N) : jsstring :=
  [37; hex_digit (octet / 16); hex_digit (octet mod 16)].

Definition utf8 (cp : N) : list N :=
  if cp <? 128 then [cp]
  else if cp <? 2048 then [192 + cp / 64; 128 + cp mod 64]
  else if cp <? 65536 then
    [224 + cp / 4096; 128 + (cp / 64) mod 64; 128 + cp mod 64]
  else
    [240 + cp / 262144; 128 + (cp / 4096) mod 64;
     128 + (cp / 64) mod 64; 128 + cp mod 64].

Definition escape (cp : N) : jsstring := concat (List.map percent (utf8 cp)).

Definition malformed : exn := URIError (lit "URI malformed").

Fixpoint encodeURIComponent (s : jsstring) : Result jsstring :=
  match s with
  | [] => Ok []
  | c :: r =>
      if is_uri_unreserved c then
        match encodeURIComponent r with
        | Ok t => Ok (c :: t)
        | Throw e => Throw e
        end
      else if is_low_surrogate c then Throw malformed
      else if is_high_surrogate c then
        match r with
        | lo :: r' =>
            if is_low_surrogate lo then
              match encodeURIComponent r' with
              | Ok t =>
                  Ok (escape ((c - 55296) * 1024 + (lo - 56320) + 65536) ++ t)
              | Throw e => Throw e
              end
            else Throw malformed
        | [] => Throw malformed
        end
      else
        match encodeURIComponent r with
        | Ok t => Ok (escape c ++ t)
        | Throw e => Throw e
        end
  end.

(** Number-to-string conversion of an integer. *)
Definition number_to_string (z : Z) : jsstring :=
  lit (NilZero.string_of_int (Z.to_int z)).

(** ** utils/pdok: [pdokLookupPostalCode] *)

(** What the helper reads of an [APIResponse]. *)
Record Response : Type := {
  resp_ok : bool;                 (* response.ok() *)
  resp_status : Z;                (* response.status() *)
  resp_json : Result value        (* await response.json() *)
}.

(** [request.get(url)] either resolves with a response or rejects. *)
Definition APIRequestContext : Type := jsstring → Result Response.

(** The loop body: the first doc with a truthy
    [doc?.postcode || doc?.postalcode || doc?.pc6] ends the loop. *)
Fixpoint first_postcode (docs : list value) : option value :=
  match docs with
  | [] => None
  | doc :: rest =>
      let postcode :=
        or_js (or_js (opt_get doc (lit "postcode"))
                     (opt_get doc (lit "postalcode")))
              (opt_get doc (lit "pc6")) in
      if truthy postcode then Some postcode else first_postcode rest
  end.

Definition pdok_query (street houseNumber city : jsstring) : jsstring :=
  street ++ lit " " ++ houseNumber ++ lit ", " ++ city.

Definition pdok_url (encoded : jsstring) : jsstring :=
  lit "https://api.pdok.nl/bzk/locatieserver/search/v3_1/free?q="
  ++ encoded ++ lit "&rows=5".

Definition pdokLookupPostalCode (request : APIRequestContext)
    (street houseNumber city : jsstring) : Result value :=
  let query := pdok_query street houseNumber city in
  match encodeURIComponent query with
  | Throw e => Throw e
  | Ok encoded =>
  let lookupUrl := pdok_url encoded in
  match request lookupUrl with
  | Throw e => Throw e
  | Ok response =>
  if negb (resp_ok response) then
    Throw (Error (lit "PDOK request failed with status "
                  ++ number_to_string (resp_status response)))
  else
  match resp_json response with
  | Throw e => Throw e
  | Ok responseData =>
  let docs :=
    or_js (opt_get (opt_get responseData (lit "response")) (lit "docs"))
          (VArray []) in
  match iterate docs with
  | Throw e => Throw e
  | Ok items =>
  match first_postcode items with
  | Some postcode => Ok postcode
  | None =>
      Throw (Error (lit "PDOK: No postcode found for query: " ++ query))
  end end end end end.

(** The specification's words: the field names a postal code may come
    under, a doc that carries one, and the candidate docs of a response. *)
Definition known_fields : list jsstring :=
  [lit "postcode"; lit "postalcode"; lit "pc6"].

Definition own_field (doc : value) (k : jsstring) : option value :=
  match doc with
  | VObject fields => assoc k fields
  | _ => None
  end.

Definition carries_postal_code (doc : value) : Prop :=
  ∃ k v, k ∈ known_fields ∧ own_field doc k = Some v ∧ truthy v = true.

Definition candidate_docs (response : Response) : list value :=
  match resp_json response with
  | Ok body =>
      match own_field body (lit "response") with
      | Some r =>
          match own_field r (lit "docs") with
          | Some (VArray items) => items
          | _ => []
          end
      | None => []
      end
  | Throw _ => []
  end.

(** The stub of the end-to-end scenario:
    [{response:{docs:[{pc6:"1017GB"}]}}] for every URL. *)
Definition stub_body : value :=
  VObject [(lit "response",
            VObject [(lit "docs",
                      VArray [VObject [(lit "pc6", VString (lit "1017GB"))]])])].


(** ** Playwright: locators, calls and the browser *)

(** A label or name argument is [string | RegExp]. *)
Inductive TextMatcher : Type :=
  | MStr (s : jsstring)
  | MRegExp (source : jsstring).

(** A locator is a description of how to find elements, built without
    touching the page; every constructor is one Playwright builder. *)
Inductive Locator : Type :=
  | Page
  | GetByRole (scope : Locator) (role : jsstring) (name : TextMatcher) (exact : bool)
  | GetByLabel (scope : Locator) (text : TextMatcher) (exact : bool)
  | Loc (scope : Locator) (selector : jsstring)
        (hasText : option TextMatcher) (has : option Locator)
  | First (l : Locator)
  | Last (l : Locator).

(** The awaited calls that return nothing. A timeout is in milliseconds;
    [None] leaves the default in force. *)
Inductive Action : Type :=
  | WaitForVisible (l : Locator) (timeout : Z)      (* waitFor({state:'visible'}) *)
  | Click (l : Locator) (timeout : option Z)
  | Fill (l : Locator) (v : jsstring)
  | PressSequentially (l : Locator) (v : jsstring)
  | Press (l : Locator) (key : jsstring)
  | Check (l : Locator) (timeout : option Z)
  | ScrollIntoViewIfNeeded (l : Locator)
  | EvaluateClick (l : Locator)                     (* evaluate(el => el.click()) *)
  | ExpectToBeVisible (l : Locator) (timeout : option Z)
  | ExpectToBeEnabled (l : Locator) (timeout : option Z)
  | ExpectToHaveValue (l : Locator) (v : jsstring)
  | WaitForLoadState (state : jsstring)
  | WaitForTimeout (ms : Z).

(** The browser: a page state and the effect of every call on it. *)
Record Browser : Type := {
  World : Type;
  act : Action → World → Result unit * World;
  inputValue : Locator → World → Result jsstring * World;
  getAttribute : Locator → jsstring → World → Result (option jsstring) * World
}.

(** What the helpers did, in order. *)
Inductive Event : Type :=
  | EAct (a : Action) (r : Result unit)
  | EInputValue (l : Locator) (r : Result jsstring)
  | EGetAttribute (l : Locator) (name : jsstring) (r : Result (option jsstring))
  | ELog (msg : jsstring).

Record St (B : Browser) : Type := { world : World B; trace : list Event }.
Arguments world {B} s.
Arguments trace {B} s.

Definition start {B : Browser} (w : World B) : St B :=
  {| world := w; trace := [] |}.

(** An [async] body: it threads the page and the log, and resolves or
    rejects. *)
Definition M (B : Browser) (A : Type) : Type := St B → Result A * St B.

Definition ret {B A} (a : A) : M B A := fun st => (Ok a, st).

Definition bind {B A C} (m : M B A) (k : A → M B C) : M B C :=
  fun st =>
    match m st with
    | (Ok a, st') => k a st'
    | (Throw e, st') => (Throw e, st')
    end.

Declare Scope async_scope.
Delimit Scope async_scope with async.
Notation "x <- m ;; k" := (bind m (fun x => k))
  (at level 100, m at next level, right associativity) : async_scope.
Notation "m ;; k" := (bind m (fun _ => k))
  (at level 100, right associativity) : async_scope.

(** [try { body } catch { handler }] *)
Definition try_catch {B A} (body : M B A) (handler : M B A) : M B A :=
  fun st =>
    match body st with
    | (Ok a, st') => (Ok a, st')
    | (Throw _, st') => handler st'
    end.

(** [try { body; return; } catch {}] followed by [rest]. *)
Definition try_return {B} (body rest : M B unit) : M B unit :=
  try_catch body rest.

(** [promise.catch(() => {})] *)
Definition catch_ignore {B} (m : M B unit) : M B unit := try_catch m (ret tt).

Section Calls.
Context {B : Browser}.

Definition perform (a : Action) : M B unit :=
  fun st =>
    let (r, w) := act B a (world st) in
    (r, {| world := w; trace := trace st ++ [EAct a r] |}).

Definition input_value (l : Locator) : M B jsstring :=
  fun st =>
    let (r, w) := inputValue B l (world st) in
    (r, {| world := w; trace := trace st ++ [EInputValue l r] |}).

Definition get_attribute (l : Locator) (name : jsstring) : M B (option jsstring) :=
  fun st =>
    let (r, w) := getAttribute B l name (world st) in
    (r, {| world := w; trace := trace st ++ [EGetAttribute l name r] |}).

Definition console_log (msg : jsstring) : M B unit :=
  fun st => (Ok tt, {| world := world st; trace := trace st ++ [ELog msg] |}).
End Calls.

Local Open Scope async_scope.

(** ** utils/wait *)

Section Wait.
Context {B : Browser}.

Definition waitForStableLoad : M B unit :=
  perform (WaitForLoadState (lit "networkidle")) ;;
  perform (WaitForTimeout 250).
End Wait.

(** ** utils/elements *)

Section Elements.
Context {B : Browser}.

(** The three blocks of [selectMatOption], in source order. *)
Definition selectMatOption_role (optionText : jsstring) : M B unit :=
  let option := GetByRole Page (lit "option") (MStr optionText) true in
  perform (WaitForVisible option 1000) ;;
  perform (Click option (Some 1000%Z)).

Definition selectMatOption_mat (optionText : jsstring) : M B unit :=
  let option :=
    First (Loc Page (lit "mat-option") (Some (MStr optionText)) None) in
  perform (WaitForVisible option 1000) ;;
  perform (Click option (Some 1000%Z)).

Definition selectMatOption_text (optionText : jsstring) : M B unit :=
  let fallback :=
    First (Loc Page (lit "text=" ++ dquote ++ optionText ++ dquote) None None) in
  perform (WaitForVisible fallback 1000) ;;
  perform (Click fallback None).

Definition selectMatOption (optionText : jsstring) : M B unit :=
  try_return (selectMatOption_role optionText)
    (try_return (selectMatOption_mat optionText)
       (selectMatOption_text optionText)).

Definition setInputValue (input : Locator) (value : jsstring) : M B unit :=
  perform (Click input (Some 1000%Z)) ;;
  perform (Fill input value) ;;
  current <- input_value input ;;
  (if bool_decide (current ≠ value) then
     perform (Fill input []) ;;
     perform (PressSequentially input value)
   else ret tt) ;;
  perform (ExpectToHaveValue input value) ;;
  catch_ignore (perform (Press input (lit "Tab"))).

(** [label:has-text("...")], first match. *)
Definition label_has_text (labelText : jsstring) : Locator :=
  First (Loc Page (lit "label:has-text(" ++ dquote ++ labelText ++ dquote ++ lit ")")
           None None).

Definition fillTextByLabel_accessible (labelText value : jsstring) : M B unit :=
  let field := GetByLabel Page (MStr labelText) true in
  perform (ExpectToBeVisible field (Some 1000%Z)) ;;
  setInputValue field value.

(** [forAttr ? page.locator(`#${forAttr}`)
            : label.locator('xpath=..').locator('input, textarea').first()];
    [forAttr] is [string | null], and the empty string is falsy. *)
Definition fillTextByLabel_input (label : Locator) (forAttr : option jsstring)
  : Locator :=
  match forAttr with
  | Some (c :: id) => Loc Page (lit "#" ++ c :: id) None None
  | _ =>
      First (Loc (Loc label (lit "xpath=..") None None)
               (lit "input, textarea") None None)
  end.

Definition fillTextByLabel_rawdom (labelText value : jsstring) : M B unit :=
  let label := label_has_text labelText in
  perform (WaitForVisible label 1000) ;;
  forAttr <- get_attribute label (lit "for") ;;
  let input := fillTextByLabel_input label forAttr in
  perform (ExpectToBeVisible input (Some 1000%Z)) ;;
  setInputValue input value.

Definition fillTextByLabel (labelText value : jsstring) : M B unit :=
  try_return (fillTextByLabel_accessible labelText value)
    (fillTextByLabel_rawdom labelText value).

Definition selectMatOptionByLabel_accessible (labelText optionText : jsstring)
  : M B unit :=
  let field := GetByLabel Page (MStr labelText) true in
  perform (Click field (Some 1000%Z)) ;;
  selectMatOption optionText.

Definition selectMatOptionByLabel_component (labelText optionText : jsstring)
  : M B unit :=
  let container :=
    Loc Page (lit "bq-select") None
      (Some (Loc Page (lit "label:has-text(" ++ dquote ++ labelText ++ dquote ++ lit ")")
               None None)) in
  perform (WaitForVisible container 1000) ;;
  let trigger := Loc container (lit ".mat-mdc-select-trigger") None None in
  perform (Click trigger (Some 1000%Z)) ;;
  selectMatOption optionText.

Definition selectMatOptionByLabel_rawdom (labelText optionText : jsstring)
  : M B unit :=
  let label := label_has_text labelText in
  perform (WaitForVisible label 1000) ;;
  forAttribute <- get_attribute label (lit "for") ;;
  match forAttribute with
  | Some (c :: id) =>
      perform (Click (Loc Page (lit "#" ++ c :: id) None None) (Some 1000%Z))
  | _ => perform (Click label (Some 1000%Z))
  end ;;
  selectMatOption optionText.

Definition selectMatOptionByLabel (labelText optionText : jsstring) : M B unit :=
  try_return (selectMatOptionByLabel_accessible labelText optionText)
    (try_return (selectMatOptionByLabel_component labelText optionText)
       (selectMatOptionByLabel_rawdom labelText optionText)).

Definition setRadioByLabel_role (groupLabel : TextMatcher) (optionText : jsstring)
  : M B unit :=
  let group := GetByRole Page (lit "radiogroup") groupLabel false in
  let option := GetByLabel group (MStr optionText) true in
  perform (Check option (Some 1000%Z)).

Definition setRadioByLabel_component (groupLabel : TextMatcher)
    (optionText : jsstring) : M B unit :=
  let container :=
    Loc Page (lit "bq-radio-button") None
      (Some (Loc Page (lit "label") (Some groupLabel) None)) in
  perform (WaitForVisible container 1000) ;;
  let optionLabel :=
    First (Loc container (lit "label") (Some (MStr optionText)) None) in
  perform (Click optionLabel (Some 1000%Z)).

Definition setRadioByLabel_fallback (optionText : jsstring) : M B unit :=
  let fallback := GetByLabel Page (MStr optionText) true in
  perform (ExpectToBeVisible fallback None) ;;
  perform (Check fallback None).

Definition setRadioByLabel (groupLabel : TextMatcher) (optionText : jsstring)
  : M B unit :=
  try_return (setRadioByLabel_role groupLabel optionText)
    (try_return (setRadioByLabel_component groupLabel optionText)
       (setRadioByLabel_fallback optionText)).

Definition setCheckboxByLabel_role (labelText : TextMatcher) : M B unit :=
  let checkbox := GetByRole Page (lit "checkbox") labelText false in
  perform (Check checkbox (Some 1000%Z)).

Definition setCheckboxByLabel_label (labelText : TextMatcher) : M B unit :=
  let checkbox := GetByLabel Page labelText true in
  perform (Check checkbox (Some 1000%Z)).

Definition setCheckboxByLabel_component (labelText : TextMatcher) : M B unit :=
  let container :=
    Loc Page (lit "bq-checkbox") None
      (Some (Loc Page (lit "label") (Some labelText) None)) in
  perform (WaitForVisible container 1000) ;;
  let label := First (Loc container (lit "label") (Some labelText) None) in
  perform (Click label (Some 1000%Z)).

Definition setCheckboxByLabel_rawdom (labelText : TextMatcher) : M B unit :=
  let label := First (Loc Page (lit "label") (Some labelText) None) in
  perform (WaitForVisible label 1000) ;;
  forAttr <- get_attribute label (lit "for") ;;
  let input :=
    match forAttr with
    | Some (c :: id) => Loc Page (lit "#" ++ c :: id) None None
    | _ => First (Loc label (lit "input[type=" ++ dquote ++ lit "checkbox"
                               ++ dquote ++ lit "]") None None)
    end in
  try_catch (perform (Check input (Some 1000%Z)))
    (perform (Click label (Some 1000%Z))).

Definition setCheckboxByLabel (labelText : TextMatcher) : M B unit :=
  try_return (setCheckboxByLabel_role labelText)
    (try_return (setCheckboxByLabel_label labelText)
       (try_return (setCheckboxByLabel_component labelText)
          (setCheckboxByLabel_rawdom labelText))).

Definition clickProceed (buttonText : jsstring) : M B unit :=
  let button := Last (GetByRole Page (lit "button") (MStr buttonText) false) in
  perform (ExpectToBeVisible button (Some 10000%Z)) ;;
  perform (ExpectToBeEnabled button (Some 10000%Z)) ;;
  perform (ScrollIntoViewIfNeeded button) ;;
  try_catch (perform (Click button (Some 10000%Z)))
    (console_log (lit "Standard click on " ++ dquote ++ buttonText ++ dquote
                  ++ lit " button failed, falling back to DOM click()") ;;
     perform (EvaluateClick button)) ;;
  waitForStableLoad.
End Elements.

(** ** The specification's vocabulary *)

(** A strategy chain: the strategies run in order until one resolves; the
    last one's failure is the chain's. *)
Fixpoint chain {B} (first : M B unit) (others : list (M B unit)) : M B unit :=
  match others with
  | [] => first
  | next :: rest =>
      fun st =>
        match first st with
        | (Ok a, st') => (Ok a, st')
        | (Throw _, st') => chain next rest st'
        end
  end.

(** How a chain ran from [st]: it committed to the first strategy that
    resolved, and what it returns is what that strategy returned, so nothing
    after it ran; or every strategy rejected, each from the state the one
    before left. *)
Inductive chain_run {B} : list (M B unit) → St B → Result unit * St B → Prop :=
  | chain_commit s rest st st' :
      s st = (Ok tt, st') →
      chain_run (s :: rest) st (Ok tt, st')
  | chain_next s s' rest st e st1 out :
      s st = (Throw e, st1) →
      chain_run (s' :: rest) st1 out →
      chain_run (s :: s' :: rest) st out
  | chain_exhausted s st e st1 :
      s st = (Throw e, st1) →
      chain_run [s] st (Throw e, st1).

(** Where a locator looks: the scope its query is evaluated in. *)
Fixpoint scoped_to (l : Locator) : Locator :=
  match l with
  | Page => Page
  | GetByRole scope _ _ _ => scope
  | GetByLabel scope _ _ => scope
  | Loc scope _ _ _ => scope
  | First l' => scoped_to l'
  | Last l' => scoped_to l'
  end.

(** The three locators [selectMatOption] may click. *)
Definition option_locators (optionText : jsstring) : list Locator :=
  [ GetByRole Page (lit "option") (MStr optionText) true;
    First (Loc Page (lit "mat-option") (Some (MStr optionText)) None);
    First (Loc Page (lit "text=" ++ dquote ++ optionText ++ dquote) None None) ].

Definition is_ok_click (ev : Event) : bool :=
  match ev with
  | EAct (Click _ _) (Ok _) => true
  | _ => false
  end.

(** A click of either kind, resolved or not. *)
Definition is_click (ev : Event) : bool :=
  match ev with
  | EAct (Click _ _) _ | EAct (EvaluateClick _) _ => true
  | _ => false
  end.

(** What the page shows of a field, and the contract of
    [expect(locator).toHaveValue(v)]: it resolves only once the element's
    value is [v]. *)
Class ValueObserver (B : Browser) : Type := {
  value_of : World B → Locator → option jsstring;
  toHaveValue_sound : ∀ l v w w',
    act B (ExpectToHaveValue l v) w = (Ok tt, w') → value_of w' l = Some v
}.

(** The calls of a fill that got through, in order. *)
Definition fill_events (input : Locator) (value current : jsstring)
    (tab : Result unit) : list Event :=
  [ EAct (Click input (Some 1000%Z)) (Ok tt);
    EAct (Fill input value) (Ok tt);
    EInputValue input (Ok current) ]
  ++ (if bool_decide (current = value) then []
      else [ EAct (Fill input []) (Ok tt);
             EAct (PressSequentially input value) (Ok tt) ])
  ++ [ EAct (ExpectToHaveValue input value) (Ok tt);
       EAct (Press input (lit "Tab")) tab ].

(** The input the raw-DOM strategy aims at, in the specification's words:
    the element selected by [#] and the [for] value when the label has a
    non-empty one, the first input or textarea under the label's parent
    otherwise. *)
Definition raw_dom_target (label : Locator) (forAttr : option jsstring) : Locator :=
  match forAttr with
  | Some id =>
      if bool_decide (id = []) then
        First (Loc (Loc label (lit "xpath=..") None None)
                 (lit "input, textarea") None None)
      else Loc Page (lit "#" ++ id) None None
  | None =>
      First (Loc (Loc label (lit "xpath=..") None None)
               (lit "input, textarea") None None)
  end.

(** Whether a checkbox is checked, and the contract of
    [locator.check()]: it resolves only once the element is checked. *)
Class CheckObserver (B : Browser) : Type := {
  checked_of : World B → Locator → option bool;
  check_sound : ∀ l t w w',
    act B (Check l t) w = (Ok tt, w') → checked_of w' l = Some true
}.

(** The label the raw-DOM strategy of [setCheckboxByLabel] finds, and the
    input it aims [check()] at, in the specification's words: the element
    selected by [#] and the [for] value when the label has a non-empty one,
    the first checkbox input inside the label otherwise. *)
Definition checkbox_raw_label (labelText : TextMatcher) : Locator :=
  First (Loc Page (lit "label") (Some labelText) None).

Definition checkbox_raw_input (labelText : TextMatcher)
    (forAttr : option jsstring) : Locator :=
  match forAttr with
  | Some id =>
      if bool_decide (id = []) then
        First (Loc (checkbox_raw_label labelText)
                 (lit "input[type=" ++ dquote ++ lit "checkbox" ++ dquote ++ lit "]")
                 None None)
      else Loc Page (lit "#" ++ id) None None
  | None =>
      First (Loc (checkbox_raw_label labelText)
               (lit "input[type=" ++ dquote ++ lit "checkbox" ++ dquote ++ lit "]")
               None None)
  end.

(** The log of a proceed that clicked, and of one that fell back to the
    DOM click. *)
Definition proceed_button (buttonText : jsstring) : Locator :=
  Last (GetByRole Page (lit "button") (MStr buttonText) false).

Definition proceed_checks (button : Locator) : list Event :=
  [ EAct (ExpectToBeVisible button (Some 10000%Z)) (Ok tt);
    EAct (ExpectToBeEnabled button (Some 10000%Z)) (Ok tt);
    EAct (ScrollIntoViewIfNeeded button) (Ok tt) ].

Definition stable_wait : list Event :=
  [ EAct (WaitForLoadState (lit "networkidle")) (Ok tt);
    EAct (WaitForTimeout 250) (Ok tt) ].

Definition proceed_log_click (button : Locator) : list Event :=
  proceed_checks button
  ++ [ EAct (Click button (Some 10000%Z)) (Ok tt) ]
  ++ stable_wait.

Definition proceed_log_dom (buttonText : jsstring) (e : exn) : list Event :=
  let button := proceed_button buttonText in
  proceed_checks button
  ++ [ EAct (Click button (Some 10000%Z)) (Throw e);
       ELog (lit "Standard click on " ++ dquote ++ buttonText ++ dquote
             ++ lit " button failed, falling back to DOM click()");
       EAct (EvaluateClick button) (Ok tt) ]
  ++ stable_wait.

(** What the page answers to a call made in state [w]: it resolves, or
    rejects with [e], and goes to [w']. *)
Definition resolves {B : Browser} (a : Action) (w w' : World B) : Prop :=
  act B a w = (Ok tt, w').

Definition rejects {B : Browser} (a : Action) (e : exn) (w w' : World B) : Prop :=
  act B a w = (Throw e, w').

(** A helper run that ended with result [r] on page [w] with log [log]. *)
Definition ends {B : Browser} (run : Result unit * St B) (r : Result unit)
    (w : World B) (log : list Event) : Prop :=
  run = (r, {| world := w; trace := log |}).






(** ** Test doubles: pages to run the helpers on *)

Fixpoint str_eqb (a b : jsstring) : bool :=
  match a, b with
  | [], [] => true
  | x :: a', y :: b' => (x =? y) && str_eqb a' b'
  | _, _ => false
  end.

Definition matcher_eqb (a b : TextMatcher) : bool :=
  match a, b with
  | MStr x, MStr y => str_eqb x y
  | MRegExp x, MRegExp y => str_eqb x y
  | _, _ => false
  end.

Fixpoint loc_eqb (a b : Locator) : bool :=
  match a, b with
  | Page, Page => true
  | GetByRole s r n e, GetByRole s' r' n' e' =>
      loc_eqb s s' && str_eqb r r' && matcher_eqb n n' && Bool.eqb e e'
  | GetByLabel s t e, GetByLabel s' t' e' =>
      loc_eqb s s' && matcher_eqb t t' && Bool.eqb e e'
  | Loc s sel ht has, Loc s' sel' ht' has' =>
      loc_eqb s s' && str_eqb sel sel'
      && match ht, ht' with
         | Some m, Some m' => matcher_eqb m m'
         | None, None => true
         | _, _ => false
         end
      && match has, has' with
         | Some h, Some h' => loc_eqb h h'
         | None, None => true
         | _, _ => false
         end
  | First l, First l' => loc_eqb l l'
  | Last l, Last l' => loc_eqb l l'
  | _, _ => false
  end.

Definition timed_out {A} : Result A := Throw (Rejected (lit "Timeout exceeded")).

(** *** A scripted page: the answers to the calls, in order

    [true] resolves the next call, [false] rejects it; once the script is
    used up every call rejects.  Every input is empty and no element has
    the attribute asked for. *)
Definition scripted : Browser := {|
  World := list bool;
  act := fun _ w =>
    match w with
    | [] => (timed_out, [])
    | answer :: rest => ((if answer then Ok tt else timed_out), rest)
    end;
  inputValue := fun _ w => (Ok [], w);
  getAttribute := fun _ _ w => (Ok None, w)
|}.

(** The number of calls a helper issues on the page where every call
    rejects: each strategy gives up at its first call, so this counts the
    strategies tried. *)
Definition attempts (op : M scripted unit) : nat :=
  length (trace (snd (op (start (B:=scripted) [])))).

(** *** A page with one labelled text field

    [<div><label for=FOR>LABEL</label><input id=ID></div>].  The input is
    reachable by its accessible label when [FOR] is its non-empty id, by
    [#ID], and as the first input under the label's parent.  [fp_blur] is
    what the page's blur handler makes of the value, [fp_stays] whether the
    input is still displayed once it lost focus, [fp_bulk] whether the
    control takes a bulk-set of a non-empty value. *)
Record FieldPage : Type := {
  fp_label : jsstring;
  fp_for : option jsstring;
  fp_id : jsstring;
  fp_blur : jsstring → jsstring;
  fp_stays : bool;
  fp_bulk : bool
}.

Record FieldWorld : Type := { fw_value : jsstring; fw_shown : bool }.

Definition fp_raw_label (p : FieldPage) : Locator :=
  First (Loc Page (lit "label:has-text(" ++ dquote ++ fp_label p ++ dquote ++ lit ")")
           None None).

Definition fp_is_input (p : FieldPage) (l : Locator) : bool :=
  (loc_eqb l (GetByLabel Page (MStr (fp_label p)) true)
   && truthy_string (fp_id p)
   && match fp_for p with Some f => str_eqb f (fp_id p) | None => false end)
  || (truthy_string (fp_id p) && loc_eqb l (Loc Page (lit "#" ++ fp_id p) None None))
  || loc_eqb l (First (Loc (Loc (fp_raw_label p) (lit "xpath=..") None None)
                         (lit "input, textarea") None None)).

Definition fp_act (p : FieldPage) (a : Action) (w : FieldWorld)
  : Result unit * FieldWorld :=
  let on_input l (w' : FieldWorld) :=
    if fp_is_input p l && fw_shown w then (Ok tt, w') else (timed_out, w) in
  match a with
  | WaitForVisible l _ | ExpectToBeVisible l _ =>
      if loc_eqb l (fp_raw_label p) then (Ok tt, w) else on_input l w
  | Click l _ => on_input l w
  | Fill l v =>
      on_input l
        (if fp_bulk p || negb (truthy_string v)
         then {| fw_value := v; fw_shown := fw_shown w |} else w)
  | PressSequentially l v =>
      on_input l {| fw_value := fw_value w ++ v; fw_shown := fw_shown w |}
  | Press l _ =>
      on_input l {| fw_value := fp_blur p (fw_value w); fw_shown := fp_stays p |}
  | ExpectToHaveValue l v =>
      if fp_is_input p l && str_eqb (fw_value w) v then (Ok tt, w)
      else (timed_out, w)
  | _ => (timed_out, w)
  end.

Definition field_page (p : FieldPage) : Browser := {|
  World := FieldWorld;
  act := fp_act p;
  inputValue := fun l w =>
    if fp_is_input p l && fw_shown w then (Ok (fw_value w), w) else (timed_out, w);
  getAttribute := fun l name w =>
    if loc_eqb l (fp_raw_label p)
    then (Ok (if str_eqb name (lit "for") then fp_for p else None), w)
    else (timed_out, w)
|}.

Definition fp_value_of (p : FieldPage) (w : FieldWorld) (l : Locator)
  : option jsstring :=
  if fp_is_input p l then Some (fw_value w) else None.

(** An empty field on display. *)
Definition blank : FieldWorld := {| fw_value := []; fw_shown := true |}.


(** A postal-code field that puts its content in upper case on blur. *)
Definition upper (c : N) : N := if (97 <=? c) && (c <=? 122) then c - 32 else c.

Definition postcode_page : FieldPage := {|
  fp_label := lit "Postal code"; fp_for := Some (lit "pc"); fp_id := lit "pc";
  fp_blur := List.map upper; fp_stays := true; fp_bulk := true
|}.


(** [<div><label for>Street</label><input></div>]: the label has a [for]
    attribute, and it is empty. *)
Definition empty_for_page : FieldPage := {|
  fp_label := lit "Street"; fp_for := Some []; fp_id := [];
  fp_blur := fun v => v; fp_stays := true; fp_bulk := true
|}.

(** A masked input that ignores a bulk-set and takes keystrokes. *)
Definition masked_page : FieldPage := {|
  fp_label := lit "Date of birth"; fp_for := Some (lit "dob"); fp_id := lit "dob";
  fp_blur := fun v => v; fp_stays := true; fp_bulk := false
|}.


(** *** A page with a checkbox

    [<bq-checkbox><label>TEXT</label></bq-checkbox>]: a click on the label
    toggles the checkbox.  When [native] holds the component exposes a
    native input that the checkbox role reaches, and [check()] on it leaves
    the checkbox checked; otherwise there is no input to reach by role or
    by label. *)
Definition bq_checkbox_container (text : TextMatcher) : Locator :=
  Loc Page (lit "bq-checkbox") None (Some (Loc Page (lit "label") (Some text) None)).

Definition bq_checkbox_label (text : TextMatcher) : Locator :=
  First (Loc (bq_checkbox_container text) (lit "label") (Some text) None).

Definition checkbox_page (text : TextMatcher) (native : bool) : Browser := {|
  World := bool;                                   (* is it checked? *)
  act := fun a checked =>
    match a with
    | Check l _ =>
        if native && loc_eqb l (GetByRole Page (lit "checkbox") text false)
        then (Ok tt, true)
        else (timed_out, checked)
    | WaitForVisible l _ =>
        if loc_eqb l (bq_checkbox_container text) then (Ok tt, checked)
        else (timed_out, checked)
    | Click l _ =>
        if loc_eqb l (bq_checkbox_label text) then (Ok tt, negb checked)
        else (timed_out, checked)
    | _ => (timed_out, checked)
    end;
  inputValue := fun _ w => (timed_out, w);
  getAttribute := fun _ _ w => (timed_out, w)
|}.

(** *** A page with an open option list

    The elements in document order; the overlay that holds the open list
    comes last, as overlays are appended to the body.  The page state is
    the list of the elements clicked so far, by index. *)
Record Elem : Type := {
  el_tag : jsstring;
  el_role : option jsstring;
  el_text : jsstring;
  el_in_open_list : bool
}.

Fixpoint starts_with (prefix s : jsstring) : bool :=
  match prefix, s with
  | [], _ => true
  | x :: prefix', y :: s' => (x =? y) && starts_with prefix' s'
  | _ :: _, [] => false
  end.

Fixpoint contains (needle hay : jsstring) : bool :=
  starts_with needle hay
  || match hay with
     | [] => false
     | _ :: rest => contains needle rest
     end.

(** What a locator denotes on this page, as indices in document order: a
    role with an exact name, a tag with [hasText] (the text contains it,
    compared as written), and [text="..."] (the text is exactly that). *)
Definition indices_where (f : Elem → bool) (dom : list Elem) : list nat :=
  List.map fst (List.filter (fun ie => f (snd ie)) (imap pair dom)).

Fixpoint dom_matches (dom : list Elem) (l : Locator) : list nat :=
  match l with
  | GetByRole Page role (MStr name) true =>
      indices_where
        (fun e => match el_role e with
                  | Some r => str_eqb r role && str_eqb (el_text e) name
                  | None => false
                  end) dom
  | Loc Page sel (Some (MStr t)) None =>
      indices_where (fun e => str_eqb (el_tag e) sel && contains t (el_text e)) dom
  | Loc Page sel None None =>
      indices_where
        (fun e => str_eqb sel (lit "text=" ++ dquote ++ el_text e ++ dquote)) dom
  | First l' => take 1 (dom_matches dom l')
  | Last l' => match last (dom_matches dom l') with Some i => [i] | None => [] end
  | _ => []
  end.

Definition dom_page (dom : list Elem) : Browser := {|
  World := list nat;
  act := fun a clicked =>
    match a with
    | WaitForVisible l _ =>
        match dom_matches dom l with
        | [] => (timed_out, clicked)
        | _ => (Ok tt, clicked)
        end
    | Click l _ =>
        match dom_matches dom l with
        | [i] => (Ok tt, clicked ++ [i])
        | _ => (timed_out, clicked)
        end
    | _ => (timed_out, clicked)
    end;
  inputValue := fun _ w => (timed_out, w);
  getAttribute := fun _ _ w => (timed_out, w)
|}.

(** The country already chosen is shown in the page's summary line; the
    open list renders its entries as plain elements. *)
Definition country_dom : list Elem :=
  [ {| el_tag := lit "span"; el_role := None;
       el_text := lit "Slovakia"; el_in_open_list := false |};
    {| el_tag := lit "div"; el_role := None;
       el_text := lit "Slovenia"; el_in_open_list := true |};
    {| el_tag := lit "div"; el_role := None;
       el_text := lit "Slovakia"; el_in_open_list := true |} ].

(** The specification's words for [requireEnv]: a value that is only
    whitespace, and what it is to be a value with the whitespace at both
    ends removed. *)
Definition whitespace_only (v : jsstring) : Prop :=
  Forall (λ c, is_ws c = true) v.

Definition trimmed_of (v t : jsstring) : Prop :=
  ∃ before after,
    v = before ++ t ++ after
    ∧ whitespace_only before ∧ whitespace_only after
    ∧ (∀ c, head t = Some c → is_ws c = false)
    ∧ (∀ c, last t = Some c → is_ws c = false).



Definition stub_response : Response :=
  {| resp_ok := true; resp_status := 200; resp_json := Ok stub_body |}.

Definition stub_request : APIRequestContext := fun _ => Ok stub_response.

(** The helpers start on these pages with an empty log. *)
Definition on_script (answers : list bool) : St scripted :=
  start (B:=scripted) answers.

Definition on_field (p : FieldPage) (w : FieldWorld) : St (field_page p) :=
  start (B:=field_page p) w.

Definition on_checkbox (text : TextMatcher) (native checked : bool)
  : St (checkbox_page text native) :=
  start (B:=checkbox_page text native) checked.

Definition on_dom (dom : list Elem) : St (dom_page dom) :=
  start (B:=dom_page dom) [].

(** The locator a logged call was issued on. *)
Definition event_locator (ev : Event) : option Locator :=
  match ev with
  | EAct (WaitForVisible l _) _ | EAct (Click l _) _ | EAct (Fill l _) _
  | EAct (PressSequentially l _) _ | EAct (Press l _) _ | EAct (Check l _) _
  | EAct (ScrollIntoViewIfNeeded l) _ | EAct (EvaluateClick l) _
  | EAct (ExpectToBeVisible l _) _ | EAct (ExpectToBeEnabled l _) _
  | EAct (ExpectToHaveValue l _) _ => Some l
  | EAct (WaitForLoadState _) _ | EAct (WaitForTimeout _) _ => None
  | EInputValue l _ => Some l
  | EGetAttribute l _ _ => Some l
  | ELog _ => None
  end.

(** The first three calls of the raw-DOM strategy of [fillTextByLabel]
    when they resolve. *)
Definition raw_dom_resolution (label : Locator) (forAttr : option jsstring)
  : list Event :=
  [ EAct (WaitForVisible label 1000) (Ok tt);
    EGetAttribute label (lit "for") (Ok forAttr);
    EAct (ExpectToBeVisible (raw_dom_target label forAttr) (Some 1000%Z)) (Ok tt) ].

(** A helper that logs at least one call from any state, and that has
    returned whenever the last call it logged is a rejected Tab. *)
Definition tab_tolerant {B} (m : M B unit) : Prop :=
  ∀ st, ∃ new,
    trace (snd (m st)) = trace st ++ new
    ∧ new ≠ []
    ∧ ∀ field e,
        last new = Some (EAct (Press field (lit "Tab")) (Throw e)) →
        fst (m st) = Ok tt.

(** ** The rest of utils/wait *)

(** [page.getByRole('heading', { name: /Service provider/i })]; the
    regular expression is kept as written. *)
Definition form_heading : Locator :=
  GetByRole Page (lit "heading") (MRegExp (lit "/Service provider/i")) false.

Definition waitAfterOpenForm {B : Browser} : M B unit :=
  waitForStableLoad ;;
  perform (ExpectToBeVisible form_heading (Some 20000%Z)).

(** ** Vocabulary for the further properties *)

(** The rejection a logged call ended with, if it did. *)
Definition event_error (ev : Event) : option exn :=
  match ev with
  | EAct _ (Throw e) | EInputValue _ (Throw e) | EGetAttribute _ _ (Throw e) =>
      Some e
  | _ => None
  end.

(** The text a logged call sends into a control. *)
Definition written (ev : Event) : option jsstring :=
  match ev with
  | EAct (Fill _ v) _ | EAct (PressSequentially _ v) _ => Some v
  | _ => None
  end.

(** A call that changes what a control holds or is set to. *)
Definition is_input (ev : Event) : bool :=
  match ev with
  | EAct (Fill _ _) _ | EAct (PressSequentially _ _) _ | EAct (Press _ _) _
  | EAct (Check _ _) _ => true
  | _ => false
  end.

(** Every call a helper logs, from any state, satisfies [P]. *)
Definition logs_only {B A} (P : Event → Prop) (m : M B A) : Prop :=
  ∀ st, ∃ new, trace (snd (m st)) = trace st ++ new ∧ Forall P new.

(** The first truthy value a doc holds under the given names, in their
    order. *)
Fixpoint pick_field (names : list jsstring) (doc : value) : option value :=
  match names with
  | [] => None
  | k :: rest =>
      match own_field doc k with
      | Some v => if truthy v then Some v else pick_field rest doc
      | None => pick_field rest doc
      end
  end.

(** A JavaScript string holds 16-bit code units. *)
Definition code_units (s : jsstring) : Prop := Forall (λ c, c < 65536) s.

(** What a URL component may hold once encoded: an unreserved character or
    the percent sign of an escape. *)
Definition url_safe (c : N) : Prop := is_uri_unreserved c = true ∨ c = 37.

(** A response with three docs: an empty postcode, then a doc with pc6 and
    postalcode, then one with a postcode. *)
Definition two_docs_response : Response :=
  {| resp_ok := true; resp_status := 200;
     resp_json :=
       Ok (VObject
             [(lit "response",
               VObject
                 [(lit "docs",
                   VArray
                     [ VObject [(lit "postcode", VString [])];
                       VObject [(lit "pc6", VString (lit "1017GB"));
                                (lit "postalcode", VString (lit "1017 GB"))];
                       VObject [(lit "postcode", VString (lit "1000AA"))] ])])]) |}.

(** A call that rejected, and a key press. *)
Definition is_rejected (ev : Event) : bool :=
  match event_error ev with
  | Some _ => true
  | None => false
  end.

Definition is_press (ev : Event) : bool :=
  match ev with
  | EAct (Press _ _) _ => true
  | _ => false
  end.

(** A log in which every call on a field comes after a resolved
    [toBeVisible] on that same field; [seen] holds the fields seen so far.
    Looking for an element, waiting for it and reading an attribute of it
    are not calls on a field. *)
Fixpoint visible_first (seen : list Locator) (log : list Event) : Prop :=
  match log with
  | [] => True
  | ev :: rest =>
      match ev with
      | EAct (ExpectToBeVisible l _) (Ok _) => visible_first (l :: seen) rest
      | EAct (ExpectToBeVisible _ _) (Throw _) | EAct (WaitForVisible _ _) _
      | EGetAttribute _ _ _ | ELog _ => visible_first seen rest
      | _ => (∀ l, event_locator ev = Some l → l ∈ seen) ∧ visible_first seen rest
      end
  end.

(** ** tests/e2e.spec: the proceed helper the test file carries itself *)

(** [clickNext] of the first scenario, and under the name [clickProceed]
    of the second: a click on the button by role, then the stable wait. *)
Definition clickNext {B : Browser} (buttonText : jsstring) : M B unit :=
  perform (Click (GetByRole Page (lit "button") (MStr buttonText) false) None) ;;
  waitForStableLoad.

(** ** The logs of [setCheckboxByLabel] *)

Definition checkbox_by_role (labelText : TextMatcher) : Locator :=
  GetByRole Page (lit "checkbox") labelText false.

Definition checkbox_by_label (labelText : TextMatcher) : Locator :=
  GetByLabel Page labelText true.

(** Both accessible checks rejected. *)
Definition checkbox_not_accessible (labelText : TextMatcher) (e1 e2 : exn)
  : list Event :=
  [ EAct (Check (checkbox_by_role labelText) (Some 1000%Z)) (Throw e1);
    EAct (Check (checkbox_by_label labelText) (Some 1000%Z)) (Throw e2) ].

(** The component strategy gave up: the component did not show within
    1 s, or the click on its label rejected. *)
Inductive checkbox_component_missed (labelText : TextMatcher)
  : list Event → Prop :=
  | component_not_shown e :
      checkbox_component_missed labelText
        [ EAct (WaitForVisible (bq_checkbox_container labelText) 1000) (Throw e) ]
  | component_click_rejected e :
      checkbox_component_missed labelText
        [ EAct (WaitForVisible (bq_checkbox_container labelText) 1000) (Ok tt);
          EAct (Click (bq_checkbox_label labelText) (Some 1000%Z)) (Throw e) ].

(** The raw-DOM strategy saw the label and read its [for] attribute. *)
Definition checkbox_raw_found (labelText : TextMatcher)
    (forAttr : option jsstring) : list Event :=
  [ EAct (WaitForVisible (checkbox_raw_label labelText) 1000) (Ok tt);
    EGetAttribute (checkbox_raw_label labelText) (lit "for") (Ok forAttr) ].

(** * Properties *)

(** ** Strings *)

Lemma trim_start_split s :
  ∃ before, s = before ++ trim_start s ∧ whitespace_only before.
Proof.
  induction s as [|c r [before [Hr Hw]]]; simpl.
  - exists []. split; [reflexivity | constructor].
  - destruct (is_ws c) eqn:Hc.
    + exists (c :: before). split.
      * simpl. f_equal. exact Hr.
      * constructor; assumption.
    + exists []. split; [reflexivity | constructor].
Qed.

Lemma trim_start_head s c : head (trim_start s) = Some c → is_ws c = false.
Proof.
  induction s as [|x r IH]; simpl; [discriminate|].
  destruct (is_ws x) eqn:Hx; [exact IH|].
  simpl. intros [= <-]. exact Hx.
Qed.


Lemma whitespace_only_reverse s :
  whitespace_only (reverse s) ↔ whitespace_only s.
Proof. apply Forall_reverse. Qed.

Lemma trim_end_split s :
  ∃ after, s = trim_end s ++ after ∧ whitespace_only after.
Proof.
  unfold trim_end.
  destruct (trim_start_split (reverse s)) as [before [Hs Hw]].
  exists (reverse before). split.
  - rewrite <- reverse_app, <- Hs, reverse_involutive. reflexivity.
  - apply whitespace_only_reverse. exact Hw.
Qed.

Lemma trim_end_last s c : last (trim_end s) = Some c → is_ws c = false.
Proof. unfold trim_end. rewrite last_reverse. apply trim_start_head. Qed.


(** Trimming the end leaves the first code unit where it is. *)
Lemma trim_end_head s c :
  head s = Some c → is_ws c = false → head (trim_end s) = Some c.
Proof.
  intros Hh Hc.
  destruct (trim_end_split s) as [after [Hs Hw]].
  destruct (trim_end s) as [|y t] eqn:Ht.
  - simpl in Hs. subst after.
    destruct s as [|x r]; [discriminate|]. simpl in Hh. injection Hh as ->.
    inversion Hw; congruence.
  - rewrite Hs in Hh. simpl in Hh. simpl. exact Hh.
Qed.

Lemma trim_trimmed v : trimmed_of v (trim v).
Proof.
  unfold trim.
  destruct (trim_start_split v) as [before [Hv Hb]].
  destruct (trim_end_split (trim_start v)) as [after [Ht Ha]].
  exists before, after. repeat split; try assumption.
  - rewrite <- Ht. exact Hv.
  - intros c Hc.
    destruct (head (trim_start v)) as [x|] eqn:Hx.
    + pose proof (trim_start_head _ _ Hx) as Hws.
      rewrite (trim_end_head _ _ Hx Hws) in Hc. congruence.
    + destruct (trim_start v); [|discriminate].
      discriminate.
  - apply trim_end_last.
Qed.



(** ** utils/env *)



(** ** utils/date *)

Lemma replace_dot_lookup s i x :
  s !! i = Some x →
  formatDateToDutchLocale s !! i = Some (if x =? dot then dash else x).
Proof.
  unfold formatDateToDutchLocale.
  revert i. induction s as [|y r IH]; intros i Hi; [discriminate|].
  simpl. destruct i as [|i].
  - injection Hi as ->. destruct (x =? dot); reflexivity.
  - simpl in Hi. destruct (y =? dot); simpl; apply IH; exact Hi.
Qed.

Lemma replace_dot_length s :
  length (formatDateToDutchLocale s) = length s.
Proof.
  unfold formatDateToDutchLocale.
  induction s as [|y r IH]; [reflexivity|].
  simpl. destruct (y =? dot); simpl; f_equal; exact IH.
Qed.

Lemma replace_dot_id s : dot ∉ s → formatDateToDutchLocale s = s.
Proof.
  unfold formatDateToDutchLocale.
  induction s as [|y r IH]; intros Hs; [reflexivity|].
  simpl. destruct (N.eqb_spec y dot) as [->|Hy].
  - exfalso. apply Hs, list_elem_of_here.
  - f_equal. apply IH. intros Hr. apply Hs, list_elem_of_further, Hr.
Qed.

Lemma replace_dot_no_dot s : dot ∉ formatDateToDutchLocale s.
Proof.
  unfold formatDateToDutchLocale.
  induction s as [|y r IH]; simpl.
  - apply not_elem_of_nil.
  - destruct (N.eqb_spec y dot) as [->|Hy]; simpl;
      rewrite not_elem_of_cons; split; try exact IH.
    + discriminate.
    + congruence.
Qed.

(** C10. [formatDateToDutchLocale(s)] is [s] with every dot turned into a
    dash, whatever the shape of [s]; it is idempotent, and the identity on
    a string without a dot. *)
Theorem formatDateToDutchLocale_spec (s : jsstring) :
  dots_to_dashes_at s (formatDateToDutchLocale s)
  ∧ formatDateToDutchLocale (formatDateToDutchLocale s)
    = formatDateToDutchLocale s
  ∧ (dot ∉ s → formatDateToDutchLocale s = s).
Proof.
  split; [split|split].
  - apply replace_dot_length.
  - apply replace_dot_lookup.
  - apply replace_dot_id, replace_dot_no_dot.
  - apply replace_dot_id.
Qed.

Example formatDateToDutchLocale_date :
  formatDateToDutchLocale (lit "31.12.2024") = lit "31-12-2024"
  ∧ formatDateToDutchLocale (lit "a.b.c.d..") = lit "a-b-c-d--".
Proof. split; reflexivity. Qed.

(** ** utils/pdok *)

Lemma opt_get_own doc k : opt_get doc k = default VUndefined (own_field doc k).
Proof. destruct doc; reflexivity. Qed.

Lemma truthy_opt_get doc k :
  truthy (opt_get doc k) = true →
  ∃ v, own_field doc k = Some v ∧ opt_get doc k = v ∧ truthy v = true.
Proof.
  rewrite opt_get_own. destruct (own_field doc k) as [v|]; simpl.
  - intros H. exists v. auto.
  - discriminate.
Qed.

Lemma falsy_opt_get doc k v :
  truthy (opt_get doc k) = false → own_field doc k = Some v → truthy v = false.
Proof. rewrite opt_get_own. intros H Hv. rewrite Hv in H. exact H. Qed.

(** The value the loop body tests on one doc. *)
Lemma doc_postcode doc :
  let postcode :=
    or_js (or_js (opt_get doc (lit "postcode")) (opt_get doc (lit "postalcode")))
          (opt_get doc (lit "pc6")) in
  if truthy postcode
  then ∃ k, k ∈ known_fields ∧ own_field doc k = Some postcode
  else ¬ carries_postal_code doc.
Proof.
  cbv zeta. unfold or_js.
  destruct (truthy (opt_get doc (lit "postcode"))) eqn:H1; cbv iota.
  { rewrite !H1. destruct (truthy_opt_get _ _ H1) as (v & Hv & Hg & _).
    rewrite Hg. exists (lit "postcode"). split; [set_solver | exact Hv]. }
  destruct (truthy (opt_get doc (lit "postalcode"))) eqn:H2; cbv iota.
  { rewrite !H2. destruct (truthy_opt_get _ _ H2) as (v & Hv & Hg & _).
    rewrite Hg. exists (lit "postalcode"). split; [set_solver | exact Hv]. }
  destruct (truthy (opt_get doc (lit "pc6"))) eqn:H3; cbv iota.
  { apply truthy_opt_get in H3 as (v & Hv & Hg & _).
    rewrite Hg. exists (lit "pc6"). split; [set_solver | exact Hv]. }
  intros (k & v & Hk & Hv & Ht).
  unfold known_fields in Hk.
  rewrite !elem_of_cons in Hk. destruct Hk as [->|[->|[->|Hk]]].
  - rewrite (falsy_opt_get _ _ _ H1 Hv) in Ht. discriminate.
  - rewrite (falsy_opt_get _ _ _ H2 Hv) in Ht. discriminate.
  - rewrite (falsy_opt_get _ _ _ H3 Hv) in Ht. discriminate.
  - inversion Hk.
Qed.

Lemma first_postcode_none items :
  first_postcode items = None ↔ ∀ doc, doc ∈ items → ¬ carries_postal_code doc.
Proof.
  induction items as [|doc rest IH]; simpl.
  - split; [|reflexivity]. intros _ doc Hd. inversion Hd.
  - pose proof (doc_postcode doc) as Hdoc. cbv zeta in Hdoc.
    destruct (truthy (or_js _ _)) eqn:Ht.
    + split; [discriminate|]. intros H. exfalso.
      destruct Hdoc as (k & Hk & Hv).
      apply (H doc); [apply list_elem_of_here|]. exists k. eexists. eauto.
    + rewrite IH. split; intros H.
      * intros d Hd. apply elem_of_cons in Hd as [->|Hd]; auto.
      * intros d Hd. apply H, list_elem_of_further, Hd.
Qed.

Lemma first_postcode_some items v :
  first_postcode items = Some v →
  ∃ doc k, doc ∈ items ∧ k ∈ known_fields
           ∧ own_field doc k = Some v ∧ truthy v = true.
Proof.
  induction items as [|doc rest IH]; simpl; [discriminate|].
  pose proof (doc_postcode doc) as Hdoc. cbv zeta in Hdoc.
  destruct (truthy (or_js _ _)) eqn:Ht.
  - intros [= <-]. destruct Hdoc as (k & Hk & Hv).
    exists doc, k. repeat split; try assumption. apply list_elem_of_here.
  - intros H. destruct (IH H) as (d & k & Hd & Hrest).
    exists d, k. split; [apply list_elem_of_further, Hd | exact Hrest].
Qed.

Lemma first_postcode_strings l : first_postcode (List.map VString l) = None.
Proof. induction l as [|s r IH]; [reflexivity | exact IH]. Qed.

(** What the loop sees is what the candidate docs offer. *)
Lemma pdok_docs response body :
  resp_json response = Ok body →
  match iterate (or_js (opt_get (opt_get body (lit "response")) (lit "docs"))
                       (VArray [])) with
  | Ok items => first_postcode items = first_postcode (candidate_docs response)
  | Throw _ => candidate_docs response = []
  end.
Proof.
  intros Hb. unfold candidate_docs. rewrite Hb.
  rewrite (opt_get_own body).
  destruct (own_field body (lit "response")) as [r|]; [|reflexivity].
  simpl. rewrite (opt_get_own r).
  destruct (own_field r (lit "docs")) as [d|]; [|reflexivity].
  simpl. unfold or_js.
  destruct d as [| |b|x|s|items|fields]; simpl; try reflexivity.
  - destruct b; reflexivity.
  - destruct x; reflexivity.
  - destruct s; simpl; [reflexivity|]. apply first_postcode_strings.
Qed.

(** C6. Given the response the request got: [pdokLookupPostalCode] throws
    exactly when the status is not a success or no candidate doc carries a
    postal code under [postcode], [postalcode] or [pc6]; a failed status is
    reported with its number; what it returns is a value a candidate doc
    carries under one of these names; and on the stub of the scenario it
    returns 1017GB. *)
Theorem pdokLookupPostalCode_spec (request : APIRequestContext)
    (street houseNumber city encoded : jsstring) (response : Response) :
  encodeURIComponent (pdok_query street houseNumber city) = Ok encoded →
  request (pdok_url encoded) = Ok response →
  ((∃ e, pdokLookupPostalCode request street houseNumber city = Throw e)
   ↔ resp_ok response = false
     ∨ ∀ doc, doc ∈ candidate_docs response → ¬ carries_postal_code doc)
  ∧ (resp_ok response = false →
     pdokLookupPostalCode request street houseNumber city
     = Throw (Error (lit "PDOK request failed with status "
                     ++ number_to_string (resp_status response))))
  ∧ (∀ v, pdokLookupPostalCode request street houseNumber city = Ok v →
       ∃ doc k, doc ∈ candidate_docs response ∧ k ∈ known_fields
                ∧ own_field doc k = Some v ∧ truthy v = true)
  ∧ pdokLookupPostalCode stub_request (lit "Kerkstraat") (lit "12")
      (lit "Amsterdam") = Ok (VString (lit "1017GB")).
Proof.
  intros Henc Hget.
  split; [|split; [|split]]; [| | |vm_compute; reflexivity];
    unfold pdokLookupPostalCode; rewrite Henc, Hget.
  - destruct (resp_ok response); cbn [negb]; [|split; eauto].
    destruct (resp_json response) as [body|e] eqn:Hb.
    + pose proof (pdok_docs response body Hb) as Hd.
      destruct (iterate _) as [items|e].
      * destruct (first_postcode items) as [v|] eqn:Hf.
        -- split; [intros [e He]; discriminate He|].
           intros [Hok|Hn]; [discriminate Hok|].
           apply first_postcode_none in Hn. congruence.
        -- split; [|eauto]. intros _. right.
           apply first_postcode_none. congruence.
      * split; [|eauto]. intros _. right. rewrite Hd.
        intros doc Hdoc. inversion Hdoc.
    + split; [|eauto]. intros _. right.
      unfold candidate_docs. rewrite Hb. intros doc Hdoc. inversion Hdoc.
  - intros ->. reflexivity.
  - intros v. destruct (resp_ok response); cbn [negb]; [|discriminate].
    destruct (resp_json response) as [body|e] eqn:Hb; [|discriminate].
    pose proof (pdok_docs response body Hb) as Hd.
    destruct (iterate _) as [items|e]; [|discriminate].
    destruct (first_postcode items) as [p|] eqn:Hf; [|discriminate].
    intros [= <-]. apply first_postcode_some. congruence.
Qed.

Lemma pdokLookupPostalCode_stub :
  ∃ doc k, doc ∈ candidate_docs stub_response ∧ k ∈ known_fields
           ∧ own_field doc k = Some (VString (lit "1017GB"))
           ∧ truthy (VString (lit "1017GB")) = true.
Proof.
  refine (proj1 (proj2 (proj2
            (pdokLookupPostalCode_spec stub_request (lit "Kerkstraat")
               (lit "12") (lit "Amsterdam")
               (lit "Kerkstraat%2012%2C%20Amsterdam") stub_response _ _)))
            (VString (lit "1017GB")) _);
    vm_compute; reflexivity.
Defined.

(** ** Running the helpers *)

Ltac run_page :=
  repeat first
    [ progress cbn [fst snd world trace start app]
    | match goal with
      | |- context [act ?B ?a ?w] =>
          destruct (act B a w) as [[[]|?] ?] eqn:?
      | |- context [inputValue ?B ?l ?w] =>
          destruct (inputValue B l w) as [[?|?] ?] eqn:?
      | |- context [getAttribute ?B ?l ?n ?w] =>
          destruct (getAttribute B l n w) as [[?|?] ?] eqn:?
      end ].

Ltac in_list := repeat first [ apply list_elem_of_here | apply list_elem_of_further ].

Ltac open_calls :=
  unfold catch_ignore, try_return, try_catch, bind, ret, perform, input_value,
    get_attribute, console_log.

Ltac open_helpers :=
  unfold clickProceed, waitForStableLoad, setInputValue, catch_ignore,
    try_return, try_catch, bind, ret, perform, input_value, get_attribute,
    console_log.

Ltac not_in_log :=
  repeat match goal with
    | H : _ ∈ _ :: _ |- _ => apply elem_of_cons in H as [H|H]
    | H : _ ∈ [] |- _ => apply elem_of_nil in H; contradiction
    | H : _ ∨ _ |- _ => destruct H as [H|H]
    end;
  try discriminate; try congruence.

(** ** clickProceed *)




Example clickProceed_clicks :
  fst (clickProceed (lit "Next") (on_script [true; true; true; true; true; true]))
  = Ok tt
  ∧ trace (snd (clickProceed (lit "Next")
                  (on_script [true; true; true; true; true; true])))
    = proceed_log_click (proceed_button (lit "Next")).
Proof. split; reflexivity. Qed.

Example clickProceed_falls_back :
  fst (clickProceed (lit "Next")
         (on_script [true; true; true; false; true; true; true]))
  = Ok tt
  ∧ trace (snd (clickProceed (lit "Next")
                  (on_script [true; true; true; false; true; true; true])))
    = proceed_log_dom (lit "Next") (Rejected (lit "Timeout exceeded")).
Proof. split; reflexivity. Qed.

(** ** The strategy chains *)

Lemma chain_run_first {B} (s : M B unit) rest st out st' :
  chain_run (s :: rest) st out → s st = (Ok tt, st') → out = (Ok tt, st').
Proof. intros Hrun Hs. inversion Hrun; subst; congruence. Qed.

Lemma chain_run_chain {B} (s : M B unit) rest st :
  chain_run (s :: rest) st (chain s rest st).
Proof.
  revert s st. induction rest as [|s' rest IH]; intros s st; simpl.
  - destruct (s st) as [[[]|e] st1] eqn:Hs.
    + apply chain_commit. exact Hs.
    + eapply chain_exhausted. exact Hs.
  - destruct (s st) as [[[]|e] st1] eqn:Hs.
    + apply chain_commit. exact Hs.
    + eapply chain_next; [exact Hs | apply IH].
Qed.

(** C2, as the code has it. Every helper is the chain of its own
    strategies, in source order: two for a text field (accessible label,
    raw DOM), three for a select, three for a radio group (the last one is
    the option's accessible label, with no group), four for a checkbox
    (role, accessible label, component, raw DOM), three for an option.  A
    chain commits to the first strategy that resolves; when its first
    strategy resolves it returns what that one returned: nothing else
    ran. *)
Theorem strategy_chains (B : Browser) (labelText value optionText : jsstring)
    (groupLabel checkboxLabel : TextMatcher) (st : St B) :
  fillTextByLabel labelText value st
  = chain (fillTextByLabel_accessible labelText value)
      [ fillTextByLabel_rawdom labelText value ] st
  ∧ selectMatOptionByLabel labelText optionText st
    = chain (selectMatOptionByLabel_accessible labelText optionText)
        [ selectMatOptionByLabel_component labelText optionText;
          selectMatOptionByLabel_rawdom labelText optionText ] st
  ∧ setRadioByLabel groupLabel optionText st
    = chain (setRadioByLabel_role groupLabel optionText)
        [ setRadioByLabel_component groupLabel optionText;
          setRadioByLabel_fallback optionText ] st
  ∧ setCheckboxByLabel checkboxLabel st
    = chain (setCheckboxByLabel_role checkboxLabel)
        [ setCheckboxByLabel_label checkboxLabel;
          setCheckboxByLabel_component checkboxLabel;
          setCheckboxByLabel_rawdom checkboxLabel ] st
  ∧ selectMatOption optionText st
    = chain (selectMatOption_role optionText)
        [ selectMatOption_mat optionText; selectMatOption_text optionText ] st
  ∧ (∀ (first : M B unit) others,
       chain_run (first :: others) st (chain first others st))
  ∧ (∀ (first : M B unit) others st',
       first st = (Ok tt, st') → chain first others st = (Ok tt, st')).
Proof.
  repeat split.
  - intros first others. apply chain_run_chain.
  - intros first others st' Hfirst.
    apply (chain_run_first first others st _ st'
             (chain_run_chain first others st) Hfirst).
Qed.

(** C2, as stated, fails: on the page where every call rejects, each
    strategy gives up at its first call, and the text field tries two
    strategies (its accessible label and the raw label, no component
    wrapper in between) and the checkbox four. *)
Lemma not_three_strategies_each :
  attempts (fillTextByLabel (lit "City") (lit "Delft")) = 2%nat
  ∧ trace (snd (fillTextByLabel (lit "City") (lit "Delft") (on_script [])))
    = [ EAct (ExpectToBeVisible (GetByLabel Page (MStr (lit "City")) true)
                (Some 1000%Z)) timed_out;
        EAct (WaitForVisible (label_has_text (lit "City")) 1000) timed_out ]
  ∧ attempts (setCheckboxByLabel (MStr (lit "I agree"))) = 4%nat
  ∧ attempts (selectMatOptionByLabel (lit "Country") (lit "Slovakia")) = 3%nat
  ∧ attempts (setRadioByLabel (MStr (lit "Sector")) (lit "Other")) = 3%nat.
Proof. repeat split; reflexivity. Qed.

(** ** Picking an option *)

Lemma selectMatOption_ok {B : Browser} (optionText : jsstring) (st st' : St B) :
  selectMatOption optionText st = (Ok tt, st') →
  ∃ l timeout new,
    l ∈ option_locators optionText ∧ scoped_to l = Page
    ∧ trace st' = trace st ++ new
    ∧ List.filter is_ok_click new = [EAct (Click l timeout) (Ok tt)]
    ∧ last new = Some (EAct (Click l timeout) (Ok tt)).
Proof.
  unfold selectMatOption, selectMatOption_role, selectMatOption_mat,
    selectMatOption_text.
  open_helpers. run_page.
  all: intros H; try discriminate H; injection H as <-; cbn [trace].
  all: rewrite <- ?app_assoc.
  all: eexists _, _, _.
  all: split; [|split; [|split; [reflexivity|split; [reflexivity|]]]].
  all: first [ reflexivity | unfold option_locators; in_list ].
Qed.

Lemma selectMatOption_extends {B : Browser} (optionText : jsstring)
    (st st' : St B) r :
  selectMatOption optionText st = (r, st') → ∃ new, trace st' = trace st ++ new.
Proof.
  unfold selectMatOption, selectMatOption_role, selectMatOption_mat,
    selectMatOption_text.
  open_helpers. run_page.
  all: intros H; injection H as <- <-; cbn [trace].
  all: rewrite <- ?app_assoc; eexists; reflexivity.
Qed.

(** What [selectMatOptionByLabel] clicks. When it returns, the control was
    opened by a click, then [selectMatOption] ran, and of its calls exactly
    one click resolved, the last call: a click on the option by role and
    exact name, or on the first [mat-option] with the text, or on the first
    element with exactly that text.  Each of the three is looked up from
    the page, none inside the list that was opened. *)
Theorem selectMatOptionByLabel_click (B : Browser)
    (labelText optionText : jsstring) (st st' : St B) :
  selectMatOptionByLabel labelText optionText st = (Ok tt, st') →
  ∃ st_open l timeout new,
    selectMatOption optionText st_open = (Ok tt, st')
    ∧ l ∈ option_locators optionText ∧ scoped_to l = Page
    ∧ trace st' = trace st_open ++ new
    ∧ List.filter is_ok_click new = [EAct (Click l timeout) (Ok tt)]
    ∧ last new = Some (EAct (Click l timeout) (Ok tt))
    ∧ ∃ opening opener t,
        trace st_open = trace st ++ opening
        ∧ last opening = Some (EAct (Click opener t) (Ok tt)).
Proof.
  unfold selectMatOptionByLabel, selectMatOptionByLabel_accessible,
    selectMatOptionByLabel_component, selectMatOptionByLabel_rawdom.
  open_helpers.
  repeat first
    [ progress run_page
    | match goal with
      | |- context [selectMatOption ?o ?s] =>
          destruct (selectMatOption o s) as [[[]|?] ?] eqn:?
      | |- context [match ?o with Some _ => _ | None => _ end] =>
          destruct o as [[|? ?]|]
      end ].
  all: intros H; try discriminate H; injection H as <-.
  all: repeat match goal with
         | Hs : selectMatOption _ _ = (Throw _, _) |- _ =>
             apply selectMatOption_extends in Hs as [? Hs]; cbn [trace] in Hs
         end.
  all: match goal with
       | Hs : selectMatOption _ ?s0 = (Ok tt, _) |- _ =>
           destruct (selectMatOption_ok _ _ _ Hs)
             as (lo & to & evs & Hl & Hp & Ht & Hf & Hlast);
           exists s0, lo, to, evs;
           repeat (split; [assumption|]); clear Ht
       end.
  all: cbn [trace].
  all: repeat match goal with
         | Hs : trace _ = _ |- _ => rewrite Hs; clear Hs
         end.
  all: rewrite <- ?app_assoc.
  all: eexists _, _, _; split; [reflexivity | rewrite ?last_app; reflexivity].
Qed.

(** C4 at the failing page. The chosen country is shown in the summary
    line of the page and the open list renders plain entries: no element
    has the option role, none is a [mat-option], and the first element of
    the page with the text is the summary line.  The last-resort lookup,
    which the source describes as a lookup in the option list, is made over
    the page: the helper returns, and the one element it clicked is element
    0, outside the open list, while the entry of the list is element 2. *)
Lemma option_click_outside_open_list :
  fst (selectMatOption (lit "Slovakia") (on_dom country_dom)) = Ok tt
  ∧ world (snd (selectMatOption (lit "Slovakia") (on_dom country_dom)))
    = [0%nat]
  ∧ el_in_open_list <$> country_dom !! 0%nat = Some false
  ∧ el_in_open_list <$> country_dom !! 2%nat = Some true.
Proof. repeat split; reflexivity. Qed.

Lemma selectMatOptionByLabel_on_script :
  ∃ st_open l timeout new,
    selectMatOption (lit "Slovakia") st_open
    = (Ok tt, snd (selectMatOptionByLabel (lit "Country") (lit "Slovakia")
                     (on_script [true; false; false; true; true])))
    ∧ l ∈ option_locators (lit "Slovakia") ∧ scoped_to l = Page
    ∧ trace (snd (selectMatOptionByLabel (lit "Country") (lit "Slovakia")
                    (on_script [true; false; false; true; true])))
      = trace st_open ++ new
    ∧ List.filter is_ok_click new = [EAct (Click l timeout) (Ok tt)]
    ∧ last new = Some (EAct (Click l timeout) (Ok tt))
    ∧ ∃ opening opener t,
        trace st_open = trace (on_script [true; false; false; true; true])
                        ++ opening
        ∧ last opening = Some (EAct (Click opener t) (Ok tt)).
Proof.
  apply (selectMatOptionByLabel_click scripted (lit "Country") (lit "Slovakia")).
  reflexivity.
Defined.

(** ** Setting a checkbox *)

Lemma checkbox_page_check (text : TextMatcher) (native : bool) l t
    (w w' : World (checkbox_page text native)) :
  act (checkbox_page text native) (Check l t) w = (Ok tt, w') →
  Some w' = Some true.
Proof.
  cbn [act checkbox_page].
  destruct (native && loc_eqb l _); [|discriminate].
  intros [= <-]. reflexivity.
Qed.

#[export] Instance checkbox_page_observer (text : TextMatcher) (native : bool)
  : CheckObserver (checkbox_page text native) :=
  @Build_CheckObserver (checkbox_page text native) (λ w _, Some w)
    (checkbox_page_check text native).

Ltac checked_by_contract :=
  cbn [world]; eapply check_sound; eassumption.

Ltac raw_dom_checkbox_failure :=
  first [ left; reflexivity
        | right; left; reflexivity
        | right; right;
          match goal with
          | Hfor : getAttribute _ _ _ _ = (Ok ?a, _) |- _ => exists a
          end;
          eexists; reflexivity ].

Ltac raw_dom_checkbox_log :=
  first [ left; split; [reflexivity | checked_by_contract]
        | right; eexists; reflexivity ].

(** C3, as the code has it. [setCheckboxByLabel] returns with one of five
    logs and no other.  (1) [check()] on the checkbox found by role
    resolved, the only call.  (2) It rejected and [check()] on the checkbox
    found by accessible label resolved.  In both the checkbox is then
    checked, whatever it was before.  (3) Both rejected, the component
    showed, and the one click on its label resolved: nothing was read or
    verified after it.  (4) The component strategy gave up, the raw-DOM
    label showed, its [for] attribute was read, and [check()] resolved on
    the input that attribute gives — the element with that id when the
    value is not empty, else the first checkbox input inside the label: the
    input is then checked.  (5) That [check()] rejected and the one click
    on the raw-DOM label resolved, nothing verified.  Every timeout is 1 s.
    It throws with one of three logs and no other: both accessible checks
    rejected, the component strategy gave up, and then the wait for the
    raw-DOM label rejected, or the read of its attribute, or the check and
    then the click; the rejection thrown is that of the last call.  So when
    neither check resolves and neither the component nor the label shows,
    it throws the rejection of the wait for the label. *)
Theorem setCheckboxByLabel_spec (B : Browser) (O : CheckObserver B)
    (labelText : TextMatcher) (st : St B) :
  (∀ st', setCheckboxByLabel labelText st = (Ok tt, st') →
     ∃ new,
       trace st' = trace st ++ new
       ∧ ((new = [ EAct (Check (checkbox_by_role labelText) (Some 1000%Z)) (Ok tt) ]
           ∧ checked_of (world st') (checkbox_by_role labelText) = Some true)
          ∨ (∃ e1,
               new = [ EAct (Check (checkbox_by_role labelText) (Some 1000%Z))
                         (Throw e1);
                       EAct (Check (checkbox_by_label labelText) (Some 1000%Z))
                         (Ok tt) ]
               ∧ checked_of (world st') (checkbox_by_label labelText) = Some true)
          ∨ (∃ e1 e2,
               new = checkbox_not_accessible labelText e1 e2
                     ++ [ EAct (WaitForVisible (bq_checkbox_container labelText)
                                  1000) (Ok tt);
                          EAct (Click (bq_checkbox_label labelText) (Some 1000%Z))
                            (Ok tt) ])
          ∨ (∃ e1 e2 missed forAttr,
               checkbox_component_missed labelText missed
               ∧ ((new = checkbox_not_accessible labelText e1 e2 ++ missed
                         ++ checkbox_raw_found labelText forAttr
                         ++ [ EAct (Check (checkbox_raw_input labelText forAttr)
                                      (Some 1000%Z)) (Ok tt) ]
                   ∧ checked_of (world st') (checkbox_raw_input labelText forAttr)
                     = Some true)
                  ∨ ∃ e3,
                      new = checkbox_not_accessible labelText e1 e2 ++ missed
                            ++ checkbox_raw_found labelText forAttr
                            ++ [ EAct (Check (checkbox_raw_input labelText forAttr)
                                         (Some 1000%Z)) (Throw e3);
                                 EAct (Click (checkbox_raw_label labelText)
                                         (Some 1000%Z)) (Ok tt) ]))))
  ∧ (∀ e st', setCheckboxByLabel labelText st = (Throw e, st') →
       ∃ e1 e2 missed tail,
         checkbox_component_missed labelText missed
         ∧ trace st' = trace st ++ checkbox_not_accessible labelText e1 e2
                       ++ missed ++ tail
         ∧ (tail = [ EAct (WaitForVisible (checkbox_raw_label labelText) 1000)
                       (Throw e) ]
            ∨ tail = [ EAct (WaitForVisible (checkbox_raw_label labelText) 1000)
                         (Ok tt);
                       EGetAttribute (checkbox_raw_label labelText) (lit "for")
                         (Throw e) ]
            ∨ ∃ forAttr e3,
                tail = checkbox_raw_found labelText forAttr
                       ++ [ EAct (Check (checkbox_raw_input labelText forAttr)
                                    (Some 1000%Z)) (Throw e3);
                            EAct (Click (checkbox_raw_label labelText)
                                    (Some 1000%Z)) (Throw e) ]))
  ∧ (∀ e1 e2 e3 e4 w1 w2 w3 w4,
       rejects (Check (checkbox_by_role labelText) (Some 1000%Z)) e1 (world st) w1 →
       rejects (Check (checkbox_by_label labelText) (Some 1000%Z)) e2 w1 w2 →
       rejects (WaitForVisible (bq_checkbox_container labelText) 1000) e3 w2 w3 →
       rejects (WaitForVisible (checkbox_raw_label labelText) 1000) e4 w3 w4 →
       ends (setCheckboxByLabel labelText st) (Throw e4) w4
         (trace st ++ checkbox_not_accessible labelText e1 e2
          ++ [ EAct (WaitForVisible (bq_checkbox_container labelText) 1000)
                 (Throw e3);
               EAct (WaitForVisible (checkbox_raw_label labelText) 1000)
                 (Throw e4) ]))
  ∧ fst (setCheckboxByLabel labelText (on_script [])) = timed_out.
Proof.
  split; [|split; [|split; [|reflexivity]]].
  - intros st'.
    unfold setCheckboxByLabel, setCheckboxByLabel_role, setCheckboxByLabel_label,
      setCheckboxByLabel_component, setCheckboxByLabel_rawdom.
    open_calls.
    repeat first
      [ progress run_page
      | match goal with
        | |- context [match ?o with Some _ => _ | None => _ end] =>
            destruct o as [[|? ?]|]
        end ].
    all: intros Hrun; try discriminate Hrun; injection Hrun as <-.
    all: cbn [world trace]; rewrite <- ?app_assoc; cbn [app].
    all: eexists; split; [reflexivity|].
    all: first
      [ left; split; [reflexivity | checked_by_contract]
      | right; left; eexists; split; [reflexivity | checked_by_contract]
      | right; right; left; eexists _, _; reflexivity
      | right; right; right;
        match goal with
        | Hfor : getAttribute _ _ _ _ = (Ok ?a, _) |- _ => eexists _, _, _, a
        end;
        first [ split; [apply component_not_shown|]; raw_dom_checkbox_log
              | split; [apply component_click_rejected|]; raw_dom_checkbox_log ] ].
  - intros e st'.
    unfold setCheckboxByLabel, setCheckboxByLabel_role, setCheckboxByLabel_label,
      setCheckboxByLabel_component, setCheckboxByLabel_rawdom.
    open_calls.
    repeat first
      [ progress run_page
      | match goal with
        | |- context [match ?o with Some _ => _ | None => _ end] =>
            destruct o as [[|? ?]|]
        end ].
    all: intros Hrun; try discriminate Hrun; injection Hrun as <- <-.
    all: cbn [world trace]; rewrite <- ?app_assoc; cbn [app].
    all: first
      [ eexists _, _, _, _; split; [apply component_not_shown|];
        split; [reflexivity|]; raw_dom_checkbox_failure
      | eexists _, _, _, _; split; [apply component_click_rejected|];
        split; [reflexivity|]; raw_dom_checkbox_failure ].
  - intros e1 e2 e3 e4 w1 w2 w3 w4 H1 H2 H3 H4.
    unfold setCheckboxByLabel, setCheckboxByLabel_role, setCheckboxByLabel_label,
      setCheckboxByLabel_component, setCheckboxByLabel_rawdom,
      checkbox_not_accessible, checkbox_by_role, checkbox_by_label,
      bq_checkbox_container, checkbox_raw_label in *.
    open_calls. unfold ends, resolves, rejects in *.
    rewrite H1. cbn [world trace]. rewrite H2. cbn [world trace].
    rewrite H3. cbn [world trace]. rewrite H4. cbn [world trace].
    rewrite <- !app_assoc. reflexivity.
Qed.

(** The checkbox is reached by role and already checked: the helper
    returns after the one [check()], and it stays checked. *)
Lemma setCheckboxByLabel_already_checked :
  ∃ new,
    trace (snd (setCheckboxByLabel (MStr (lit "I agree"))
                  (on_checkbox (MStr (lit "I agree")) true true)))
    = [] ++ new
    ∧ new = [ EAct (Check (checkbox_by_role (MStr (lit "I agree"))) (Some 1000%Z))
                (Ok tt) ]
    ∧ Some (world (snd (setCheckboxByLabel (MStr (lit "I agree"))
                          (on_checkbox (MStr (lit "I agree")) true true))))
      = Some true.
Proof.
  destruct (proj1 (setCheckboxByLabel_spec
                     (checkbox_page (MStr (lit "I agree")) true)
                     (checkbox_page_observer (MStr (lit "I agree")) true)
                     (MStr (lit "I agree"))
                     (on_checkbox (MStr (lit "I agree")) true true))
              _ eq_refl)
    as (new & Ht & Hshape).
  exists new. split; [exact Ht|].
  destruct Hshape
    as [[Hn Hc]
       |[(e1 & Hn & _)
        |[(e1 & e2 & Hn)
         |(e1 & e2 & missed & forAttr & _ & [[Hn _]|(e3 & Hn)])]]].
  - split; [exact Hn | exact Hc].
  - subst new. vm_compute in Ht. discriminate Ht.
  - subst new. vm_compute in Ht. discriminate Ht.
  - subst new. vm_compute in Ht. discriminate Ht.
  - subst new. vm_compute in Ht. discriminate Ht.
Defined.

(** C3, as stated, fails. The checkbox is a component without a native
    input and it is checked.  The role and label strategies miss, the
    component strategy clicks the label, and the helper returns with the
    checkbox unchecked.  From the unchecked state the same call checks it:
    the click toggles. *)
Lemma setCheckboxByLabel_unchecks :
  fst (setCheckboxByLabel (MStr (lit "I agree"))
         (on_checkbox (MStr (lit "I agree")) false true)) = Ok tt
  ∧ world (snd (setCheckboxByLabel (MStr (lit "I agree"))
                  (on_checkbox (MStr (lit "I agree")) false true))) = false
  ∧ world (snd (setCheckboxByLabel (MStr (lit "I agree"))
                  (on_checkbox (MStr (lit "I agree")) false false))) = true.
Proof. repeat split; reflexivity. Qed.

(** ** Filling a text field *)

Lemma setInputValue_ok {B : Browser} {O : ValueObserver B}
    (input : Locator) (value : jsstring) (st st' : St B) :
  setInputValue input value st = (Ok tt, st') →
  ∃ current w_checked tab,
    trace st' = trace st ++ fill_events input value current tab
    ∧ value_of w_checked input = Some value
    ∧ act B (Press input (lit "Tab")) w_checked = (tab, world st').
Proof.
  unfold setInputValue, fill_events. open_calls. run_page.
  all: try (intros Hrun; discriminate Hrun).
  all: case_bool_decide; run_page.
  all: intros Hrun; try discriminate Hrun; injection Hrun as <-; cbn [trace world].
  all: rewrite <- ?app_assoc.
  all: match goal with
       | Hv : act _ (ExpectToHaveValue _ _) _ = (Ok tt, ?wc),
         Ht : act _ (Press _ _) ?wc = (?r, _),
         Hi : inputValue _ _ _ = (Ok ?cur, _) |- _ =>
           exists cur, wc, r;
           split; [|split; [exact (toHaveValue_sound _ _ _ _ Hv) | exact Ht]]
       end.
  all: first [ rewrite bool_decide_eq_false_2 by assumption
             | rewrite bool_decide_eq_true_2 by assumption ].
  all: reflexivity.
Qed.

(** Whatever [setInputValue] does it logs, and when the last thing it
    logged is a rejected Tab it has returned all the same. *)
Lemma setInputValue_log {B : Browser} (input : Locator) (value : jsstring)
    (st : St B) :
  ∃ new,
    trace (snd (setInputValue input value st)) = trace st ++ new
    ∧ new ≠ []
    ∧ ∀ field e,
        last new = Some (EAct (Press field (lit "Tab")) (Throw e)) →
        fst (setInputValue input value st) = Ok tt.
Proof.
  unfold setInputValue. open_calls. run_page.
  all: try case_bool_decide; run_page.
  all: rewrite <- ?app_assoc.
  all: eexists; split; [reflexivity|split; [discriminate|]].
  all: intros field e' Hl; try reflexivity; discriminate Hl.
Qed.

Lemma fillTextByLabel_input_target label forAttr :
  fillTextByLabel_input label forAttr = raw_dom_target label forAttr.
Proof.
  unfold fillTextByLabel_input, raw_dom_target.
  destruct forAttr as [[|c id]|]; reflexivity.
Qed.

Lemma last_app_nonempty {A} (l1 l2 : list A) : l2 ≠ [] → last (l1 ++ l2) = last l2.
Proof.
  intros Hne. rewrite last_app.
  destruct (last l2) eqn:Hl; [reflexivity|].
  apply last_None in Hl. contradiction.
Qed.

Lemma tab_tolerant_setInputValue {B : Browser} input value :
  tab_tolerant (B:=B) (setInputValue input value).
Proof. intros st. apply setInputValue_log. Qed.

Lemma tab_tolerant_perform {B : Browser} (a : Action) (m : M B unit) :
  (∀ l key, a ≠ Press l key) →
  tab_tolerant m → tab_tolerant (perform a ;; m).
Proof.
  intros Hpress Hm st. unfold bind, perform.
  destruct (act B a (world st)) as [[[]|e] w] eqn:Ha.
  - destruct (Hm {| world := w; trace := trace st ++ [EAct a (Ok tt)] |})
      as (new & Ht & Hne & Hlast).
    exists ([EAct a (Ok tt)] ++ new). split; [|split].
    + rewrite Ht. cbn [trace]. rewrite <- app_assoc. reflexivity.
    + discriminate.
    + intros field e. rewrite (last_app_nonempty _ _ Hne). apply Hlast.
  - exists [EAct a (Throw e)]. cbn [fst snd trace].
    split; [reflexivity|split; [discriminate|]].
    intros field e' [= Hl _]. destruct (Hpress _ _ Hl).
Qed.

Lemma tab_tolerant_attribute {B : Browser} l name (k : option jsstring → M B unit) :
  (∀ a, tab_tolerant (k a)) → tab_tolerant (x <- get_attribute l name ;; k x).
Proof.
  intros Hk st. unfold bind, get_attribute.
  destruct (getAttribute B l name (world st)) as [[a|e] w] eqn:Ha.
  - destruct (Hk a {| world := w;
                      trace := trace st ++ [EGetAttribute l name (Ok a)] |})
      as (new & Ht & Hne & Hlast).
    exists ([EGetAttribute l name (Ok a)] ++ new). split; [|split].
    + rewrite Ht. cbn [trace]. rewrite <- app_assoc. reflexivity.
    + discriminate.
    + intros field e. rewrite (last_app_nonempty _ _ Hne). apply Hlast.
  - exists [EGetAttribute l name (Throw e)]. cbn [fst snd trace].
    split; [reflexivity|split; [discriminate|]].
    intros field e' Hl. discriminate Hl.
Qed.

Lemma tab_tolerant_try_return {B : Browser} (a b : M B unit) :
  tab_tolerant a → tab_tolerant b → tab_tolerant (try_return a b).
Proof.
  intros Ha Hb st. unfold try_return, try_catch.
  destruct (Ha st) as (new & Ht & Hne & Hlast).
  destruct (a st) as [[[]|e] st1] eqn:Hrun; cbn [fst snd] in *.
  - exists new. auto.
  - destruct (Hb st1) as (new' & Ht' & Hne' & Hlast').
    exists (new ++ new'). split; [|split].
    + rewrite Ht', Ht, <- app_assoc. reflexivity.
    + intros Hnil. apply app_eq_nil in Hnil as [_ Hnil]. contradiction.
    + intros field e'. rewrite (last_app_nonempty _ _ Hne'). apply Hlast'.
Qed.

Lemma tab_tolerant_fillTextByLabel {B : Browser} labelText value :
  tab_tolerant (B:=B) (fillTextByLabel labelText value).
Proof.
  apply tab_tolerant_try_return.
  - apply tab_tolerant_perform; [discriminate|].
    apply tab_tolerant_setInputValue.
  - unfold fillTextByLabel_rawdom.
    apply tab_tolerant_perform; [discriminate|].
    apply tab_tolerant_attribute. intros a.
    apply tab_tolerant_perform; [discriminate|].
    apply tab_tolerant_setInputValue.
Qed.

Lemma fillTextByLabel_accessible_ok {B : Browser} {O : ValueObserver B}
    labelText value (st st' : St B) :
  fillTextByLabel_accessible labelText value st = (Ok tt, st') →
  ∃ current w_checked tab before,
    trace st' = before ++ fill_events (GetByLabel Page (MStr labelText) true)
                            value current tab
    ∧ value_of w_checked (GetByLabel Page (MStr labelText) true) = Some value
    ∧ act B (Press (GetByLabel Page (MStr labelText) true) (lit "Tab")) w_checked
      = (tab, world st').
Proof.
  unfold fillTextByLabel_accessible, bind, perform.
  destruct (act B _ (world st)) as [[[]|e] w]; [|discriminate].
  intros Hrun. apply setInputValue_ok in Hrun as (cur & wc & tab & Ht & Hv & Hp).
  exists cur, wc, tab. eexists. split; [exact Ht | split; assumption].
Qed.

Lemma fillTextByLabel_rawdom_ok {B : Browser} {O : ValueObserver B}
    labelText value (st st' : St B) :
  fillTextByLabel_rawdom labelText value st = (Ok tt, st') →
  ∃ forAttr current w_checked tab before,
    trace st' = before ++ fill_events
                            (raw_dom_target (label_has_text labelText) forAttr)
                            value current tab
    ∧ value_of w_checked (raw_dom_target (label_has_text labelText) forAttr)
      = Some value
    ∧ act B (Press (raw_dom_target (label_has_text labelText) forAttr)
               (lit "Tab")) w_checked
      = (tab, world st').
Proof.
  unfold fillTextByLabel_rawdom, bind, perform, get_attribute.
  destruct (act B _ (world st)) as [[[]|e] w]; [|discriminate].
  cbn [world trace].
  destruct (getAttribute B _ _ w) as [[a|e] w1]; [|discriminate].
  cbn [world trace]. rewrite fillTextByLabel_input_target.
  destruct (act B _ w1) as [[[]|e] w2]; [|discriminate].
  intros Hrun. apply setInputValue_ok in Hrun as (cur & wc & tab & Ht & Hv & Hp).
  exists a, cur, wc, tab. eexists. split; [exact Ht | split; assumption].
Qed.

(** C1, as the code has it. When [fillTextByLabel] returns, the field it
    settled on — the one found by its accessible label, or the raw-DOM
    target — was clicked, bulk-filled and read back, cleared and typed key
    by key if the read-back differed, and the assertion of equality passed:
    the field held [value] then.  The one call after that is the Tab press
    on the same field, and the page the helper returns with is the page
    that press left.  A rejected Tab does not fail the helper: whenever the
    last call logged is a rejected Tab press, the helper has returned. *)
Theorem fillTextByLabel_verified (B : Browser) (O : ValueObserver B)
    (labelText value : jsstring) (st : St B) :
  (∀ st', fillTextByLabel labelText value st = (Ok tt, st') →
     ∃ field current w_checked tab before,
       (field = GetByLabel Page (MStr labelText) true
        ∨ ∃ forAttr, field = raw_dom_target (label_has_text labelText) forAttr)
       ∧ trace st' = before ++ fill_events field value current tab
       ∧ value_of w_checked field = Some value
       ∧ act B (Press field (lit "Tab")) w_checked = (tab, world st'))
  ∧ (∀ field e,
       last (trace (snd (fillTextByLabel labelText value st)))
       = Some (EAct (Press field (lit "Tab")) (Throw e)) →
       fst (fillTextByLabel labelText value st) = Ok tt).
Proof.
  split.
  - intros st'. unfold fillTextByLabel, try_return, try_catch.
    destruct (fillTextByLabel_accessible labelText value st)
      as [[[]|e] st1] eqn:Hacc.
    + intros [= <-].
      destruct (fillTextByLabel_accessible_ok _ _ _ _ Hacc)
        as (cur & wc & tab & before & Ht & Hv & Hp).
      exists (GetByLabel Page (MStr labelText) true), cur, wc, tab, before.
      auto.
    + intros Hraw.
      destruct (fillTextByLabel_rawdom_ok _ _ _ _ Hraw)
        as (a & cur & wc & tab & before & Ht & Hv & Hp).
      exists (raw_dom_target (label_has_text labelText) a), cur, wc, tab, before.
      split; [right; exists a; reflexivity | auto].
  - intros field e.
    destruct (tab_tolerant_fillTextByLabel labelText value st)
      as (new & Ht & Hne & Hlast).
    rewrite Ht, (last_app_nonempty _ _ Hne). apply Hlast.
Qed.

(** *** The labelled text field as a page *)

Lemma str_eqb_eq a b : str_eqb a b = true → a = b.
Proof.
  revert b. induction a as [|x a IH]; intros [|y b]; simpl; try discriminate.
  - reflexivity.
  - intros H. apply andb_true_iff in H as [Hx Ha].
    apply N.eqb_eq in Hx. f_equal; auto.
Qed.


Lemma field_page_toHaveValue (p : FieldPage) l v (w w' : World (field_page p)) :
  act (field_page p) (ExpectToHaveValue l v) w = (Ok tt, w') →
  fp_value_of p w' l = Some v.
Proof.
  cbn [act field_page]. unfold fp_act, fp_value_of.
  destruct (fp_is_input p l); [|discriminate].
  destruct (str_eqb (fw_value w) v) eqn:He; [|discriminate].
  cbn [andb]. intros [= <-]. f_equal. apply str_eqb_eq. exact He.
Qed.

#[export] Instance field_page_observer (p : FieldPage)
  : ValueObserver (field_page p) :=
  @Build_ValueObserver (field_page p) (fp_value_of p) (field_page_toHaveValue p).

Lemma fillTextByLabel_masked_field :
  ∃ field current w_checked tab before,
    (field = GetByLabel Page (MStr (lit "Date of birth")) true
     ∨ ∃ forAttr,
         field = raw_dom_target (label_has_text (lit "Date of birth")) forAttr)
    ∧ trace (snd (fillTextByLabel (lit "Date of birth") (lit "01-02-1990")
                    (on_field masked_page blank)))
      = before ++ fill_events field (lit "01-02-1990") current tab
    ∧ fp_value_of masked_page w_checked field = Some (lit "01-02-1990")
    ∧ act (field_page masked_page) (Press field (lit "Tab")) w_checked
      = (tab, world (snd (fillTextByLabel (lit "Date of birth")
                            (lit "01-02-1990") (on_field masked_page blank)))).
Proof.
  apply (proj1 (fillTextByLabel_verified (field_page masked_page)
                  (field_page_observer masked_page)
                  (lit "Date of birth") (lit "01-02-1990")
                  (on_field masked_page blank))).
  vm_compute. reflexivity.
Defined.

(** The Tab press is rejected and the helper returns. *)
Example fillTextByLabel_tab_rejected :
  fst (fillTextByLabel (lit "City") [] (on_script [true; true; true; true; false]))
  = Ok tt
  ∧ last (trace (snd (fillTextByLabel (lit "City") []
                        (on_script [true; true; true; true; false]))))
    = Some (EAct (Press (GetByLabel Page (MStr (lit "City")) true) (lit "Tab"))
              timed_out).
Proof. split; reflexivity. Qed.

(** The masked input rejects the bulk-set, and the helper types the value
    key by key. *)
Example fillTextByLabel_types_key_by_key :
  trace (snd (fillTextByLabel (lit "Date of birth") (lit "01-02-1990")
                (on_field masked_page blank)))
  = [ EAct (ExpectToBeVisible (GetByLabel Page (MStr (lit "Date of birth")) true)
              (Some 1000%Z)) (Ok tt) ]
    ++ fill_events (GetByLabel Page (MStr (lit "Date of birth")) true)
         (lit "01-02-1990") [] (Ok tt)
  ∧ fw_value (world (snd (fillTextByLabel (lit "Date of birth")
                            (lit "01-02-1990") (on_field masked_page blank))))
    = lit "01-02-1990".
Proof. split; vm_compute; reflexivity. Qed.

(** C1, as stated, fails. The postal-code field puts its content in upper
    case when it loses focus.  The helper returns: the bulk fill took, the
    read-back and the assertion agreed on 1017gb, and then the Tab press
    made the field hold 1017GB. *)
Lemma blur_handler_changes_value :
  fst (fillTextByLabel (lit "Postal code") (lit "1017gb")
         (on_field postcode_page blank)) = Ok tt
  ∧ fp_value_of postcode_page
      (world (snd (fillTextByLabel (lit "Postal code") (lit "1017gb")
                     (on_field postcode_page blank))))
      (GetByLabel Page (MStr (lit "Postal code")) true)
    = Some (lit "1017GB")
  ∧ lit "1017GB" ≠ lit "1017gb".
Proof. repeat split; try (vm_compute; reflexivity). discriminate. Qed.

(** *** Filling twice *)







(** *** The raw-DOM strategy *)

(** C8, as the code has it. When the accessible-label strategy has thrown,
    [fillTextByLabel] goes on from the state it left with the raw-DOM
    strategy: it waits (1 s) for the first label containing the text to be
    displayed and reads its [for] attribute; the target is the element [#]
    and that value select when the value is not empty, and the first input
    or textarea under the label's parent when there is no [for] or an
    empty one; the target must be displayed (1 s) before anything is done
    to it; then [setInputValue] runs on it.  A call that rejects on the way
    is the helper's failure, and nothing is logged after it. *)
Theorem fillTextByLabel_raw_dom (B : Browser) (labelText value : jsstring)
    (st st1 : St B) (e : exn) :
  fillTextByLabel_accessible labelText value st = (Throw e, st1) →
  ∃ new,
    trace (snd (fillTextByLabel labelText value st)) = trace st1 ++ new
    ∧ ((∃ e1,
          new = [EAct (WaitForVisible (label_has_text labelText) 1000) (Throw e1)]
          ∧ fst (fillTextByLabel labelText value st) = Throw e1)
       ∨ (∃ e2,
            new = [ EAct (WaitForVisible (label_has_text labelText) 1000) (Ok tt);
                    EGetAttribute (label_has_text labelText) (lit "for") (Throw e2) ]
            ∧ fst (fillTextByLabel labelText value st) = Throw e2)
       ∨ (∃ forAttr e3,
            new = [ EAct (WaitForVisible (label_has_text labelText) 1000) (Ok tt);
                    EGetAttribute (label_has_text labelText) (lit "for") (Ok forAttr);
                    EAct (ExpectToBeVisible
                            (raw_dom_target (label_has_text labelText) forAttr)
                            (Some 1000%Z)) (Throw e3) ]
            ∧ fst (fillTextByLabel labelText value st) = Throw e3)
       ∨ (∃ forAttr st_seen rest,
            new = raw_dom_resolution (label_has_text labelText) forAttr ++ rest
            ∧ trace st_seen
              = trace st1 ++ raw_dom_resolution (label_has_text labelText) forAttr
            ∧ fillTextByLabel labelText value st
              = setInputValue (raw_dom_target (label_has_text labelText) forAttr)
                  value st_seen)).
Proof.
  intros Hacc.
  unfold fillTextByLabel, try_return, try_catch. rewrite Hacc.
  unfold fillTextByLabel_rawdom, bind, perform, get_attribute.
  destruct (act B _ (world st1)) as [[[]|e1] w1]; cbn [world trace fst snd].
  2: { eexists. split; [reflexivity|]. left. eauto. }
  destruct (getAttribute B _ _ w1) as [[a|e2] w2]; cbn [world trace fst snd].
  2: { eexists. split; [rewrite <- app_assoc; reflexivity|].
       right. left. eauto. }
  rewrite fillTextByLabel_input_target.
  destruct (act B _ w2) as [[[]|e3] w3]; cbn [world trace fst snd].
  2: { eexists. split; [rewrite <- !app_assoc; reflexivity|].
       right. right. left. eauto. }
  match goal with
  | |- context [setInputValue ?i ?v ?s] =>
      destruct (setInputValue_log i v s) as (rest & Ht & _)
  end.
  eexists. split; [rewrite Ht; cbn [trace]; rewrite <- !app_assoc; reflexivity|].
  right. right. right. eexists a, _, rest.
  split; [reflexivity|]. split; [|reflexivity].
  cbn [trace]. rewrite <- !app_assoc. reflexivity.
Qed.

Lemma fillTextByLabel_raw_dom_on_script :
  ∃ new,
    trace (snd (fillTextByLabel (lit "Street") (lit "Kerkstraat")
                  (on_script [false; true; true; true; true; true])))
    = trace (snd (fillTextByLabel_accessible (lit "Street") (lit "Kerkstraat")
                    (on_script [false; true; true; true; true; true]))) ++ new
    ∧ ((∃ e1,
          new = [EAct (WaitForVisible (label_has_text (lit "Street")) 1000)
                   (Throw e1)]
          ∧ fst (fillTextByLabel (lit "Street") (lit "Kerkstraat")
                   (on_script [false; true; true; true; true; true]))
            = Throw e1)
       ∨ (∃ e2,
            new = [ EAct (WaitForVisible (label_has_text (lit "Street")) 1000)
                      (Ok tt);
                    EGetAttribute (label_has_text (lit "Street")) (lit "for")
                      (Throw e2) ]
            ∧ fst (fillTextByLabel (lit "Street") (lit "Kerkstraat")
                     (on_script [false; true; true; true; true; true]))
              = Throw e2)
       ∨ (∃ forAttr e3,
            new = [ EAct (WaitForVisible (label_has_text (lit "Street")) 1000)
                      (Ok tt);
                    EGetAttribute (label_has_text (lit "Street")) (lit "for")
                      (Ok forAttr);
                    EAct (ExpectToBeVisible
                            (raw_dom_target (label_has_text (lit "Street")) forAttr)
                            (Some 1000%Z)) (Throw e3) ]
            ∧ fst (fillTextByLabel (lit "Street") (lit "Kerkstraat")
                     (on_script [false; true; true; true; true; true]))
              = Throw e3)
       ∨ (∃ forAttr st_seen rest,
            new = raw_dom_resolution (label_has_text (lit "Street")) forAttr ++ rest
            ∧ trace st_seen
              = trace (snd (fillTextByLabel_accessible (lit "Street")
                              (lit "Kerkstraat")
                              (on_script [false; true; true; true; true; true])))
                ++ raw_dom_resolution (label_has_text (lit "Street")) forAttr
            ∧ fillTextByLabel (lit "Street") (lit "Kerkstraat")
                (on_script [false; true; true; true; true; true])
              = setInputValue
                  (raw_dom_target (label_has_text (lit "Street")) forAttr)
                  (lit "Kerkstraat") st_seen)).
Proof.
  apply (fillTextByLabel_raw_dom scripted (lit "Street") (lit "Kerkstraat")
           (on_script [false; true; true; true; true; true]) _
           (Rejected (lit "Timeout exceeded"))).
  reflexivity.
Defined.

(** C8, as stated, fails. The label has a [for] attribute and it is empty
    ([<label for>Street</label>]).  The helper does not aim at an element
    by that id: it fills the first input under the label's parent, and no
    call is issued on [#]. *)
Lemma empty_for_takes_the_parent :
  fst (fillTextByLabel (lit "Street") (lit "Kerkstraat")
         (on_field empty_for_page blank)) = Ok tt
  ∧ EGetAttribute (label_has_text (lit "Street")) (lit "for") (Ok (Some []))
    ∈ trace (snd (fillTextByLabel (lit "Street") (lit "Kerkstraat")
                    (on_field empty_for_page blank)))
  ∧ EAct (Fill (First (Loc (Loc (label_has_text (lit "Street")) (lit "xpath=..")
                              None None)
                         (lit "input, textarea") None None))
            (lit "Kerkstraat")) (Ok tt)
    ∈ trace (snd (fillTextByLabel (lit "Street") (lit "Kerkstraat")
                    (on_field empty_for_page blank)))
  ∧ Forall (λ ev, event_locator ev ≠ Some (Loc Page (lit "#" ++ []) None None))
      (trace (snd (fillTextByLabel (lit "Street") (lit "Kerkstraat")
                     (on_field empty_for_page blank)))).
Proof.
  split; [vm_compute; reflexivity|].
  split; [vm_compute; in_list|].
  split; [vm_compute; in_list|].
  vm_compute. repeat constructor; discriminate.
Qed.

(** * Further properties of the code *)

(** ** utils/wait: [waitAfterOpenForm] *)



(** ** utils/pdok: which postal code, and which URL *)

Lemma pick_field_doc doc :
  pick_field known_fields doc
  = (let postcode :=
       or_js (or_js (opt_get doc (lit "postcode")) (opt_get doc (lit "postalcode")))
             (opt_get doc (lit "pc6")) in
     if truthy postcode then Some postcode else None).
Proof.
  cbv zeta. unfold known_fields, pick_field, or_js.
  rewrite !opt_get_own.
  destruct (own_field doc (lit "postcode")) as [a|],
    (own_field doc (lit "postalcode")) as [b|],
    (own_field doc (lit "pc6")) as [c|].
  all: repeat (cbn [default from_option id truthy];
               match goal with
               | H : truthy ?x = _ |- context [truthy ?x] => rewrite H
               | |- context [truthy ?x] => is_var x; destruct (truthy x) eqn:?
               end).
  all: cbn [default from_option id truthy]; reflexivity.
Qed.

Lemma first_postcode_pick items v :
  first_postcode items = Some v
  ↔ ∃ before doc after,
      items = before ++ doc :: after
      ∧ Forall (λ d, pick_field known_fields d = None) before
      ∧ pick_field known_fields doc = Some v.
Proof.
  induction items as [|d rest IH]; cbn [first_postcode].
  - split; [discriminate|]. intros (before & doc & after & H & _).
    destruct before; discriminate H.
  - pose proof (pick_field_doc d) as Hd. cbv zeta in Hd.
    destruct (truthy (or_js _ _)) eqn:Ht.
    + split.
      * intros [= <-]. exists [], d, rest. split; [reflexivity|].
        split; [constructor | exact Hd].
      * intros (before & doc & after & H & Hb & Hp).
        destruct before as [|d' before]; simpl in H; injection H as -> ->.
        -- congruence.
        -- inversion Hb; congruence.
    + rewrite IH. split.
      * intros (before & doc & after & -> & Hb & Hp).
        exists (d :: before), doc, after. split; [reflexivity|].
        split; [constructor; assumption | exact Hp].
      * intros (before & doc & after & H & Hb & Hp).
        destruct before as [|d' before]; simpl in H; injection H as -> ->.
        -- congruence.
        -- inversion Hb; subst. exists before, doc, after. auto.
Qed.

(** X2. The postal code [pdokLookupPostalCode] returns is that of the first
    candidate doc, in the order of the response, that holds a truthy value
    under one of the three names, and within that doc the first truthy one
    in the order postcode, postalcode, pc6: a later doc or a later name
    never wins over an earlier one. *)
Theorem pdokLookupPostalCode_first_match (request : APIRequestContext)
    (street houseNumber city encoded : jsstring) (response : Response)
    (v : value) :
  encodeURIComponent (pdok_query street houseNumber city) = Ok encoded →
  request (pdok_url encoded) = Ok response →
  resp_ok response = true →
  (pdokLookupPostalCode request street houseNumber city = Ok v
   ↔ ∃ before doc after,
       candidate_docs response = before ++ doc :: after
       ∧ Forall (λ d, pick_field known_fields d = None) before
       ∧ pick_field known_fields doc = Some v).
Proof.
  intros Henc Hget Hok. rewrite <- first_postcode_pick.
  unfold pdokLookupPostalCode. rewrite Henc, Hget, Hok. cbn [negb].
  destruct (resp_json response) as [body|e] eqn:Hb.
  - pose proof (pdok_docs response body Hb) as Hd.
    destruct (iterate _) as [items|e].
    + rewrite <- Hd. destruct (first_postcode items); split; congruence.
    + rewrite Hd. split; discriminate.
  - unfold candidate_docs. rewrite Hb. split; discriminate.
Qed.

Lemma pdokLookupPostalCode_second_doc :
  pdokLookupPostalCode (λ _, Ok two_docs_response) (lit "Kerkstraat") (lit "12")
    (lit "Amsterdam")
  = Ok (VString (lit "1017 GB")).
Proof.
  apply (proj2 (pdokLookupPostalCode_first_match (λ _, Ok two_docs_response)
                  (lit "Kerkstraat") (lit "12") (lit "Amsterdam")
                  (lit "Kerkstraat%2012%2C%20Amsterdam") two_docs_response
                  (VString (lit "1017 GB")) eq_refl eq_refl eq_refl)).
  exists [VObject [(lit "postcode", VString [])]],
    (VObject [(lit "pc6", VString (lit "1017GB"));
              (lit "postalcode", VString (lit "1017 GB"))]),
    [VObject [(lit "postcode", VString (lit "1000AA"))]].
  split; [reflexivity|]. split; [repeat constructor | reflexivity].
Defined.

Lemma hex_digit_unreserved d : d < 16 → is_uri_unreserved (hex_digit d) = true.
Proof.
  intros Hd.
  assert (H : d = 0 ∨ d = 1 ∨ d = 2 ∨ d = 3 ∨ d = 4 ∨ d = 5 ∨ d = 6 ∨ d = 7
              ∨ d = 8 ∨ d = 9 ∨ d = 10 ∨ d = 11 ∨ d = 12 ∨ d = 13 ∨ d = 14
              ∨ d = 15) by lia.
  repeat (destruct H as [->|H]; [reflexivity|]). subst d. reflexivity.
Qed.

Lemma percent_safe octet : octet < 256 → Forall url_safe (percent octet).
Proof.
  intros Ho. unfold percent.
  constructor; [right; reflexivity|].
  constructor.
  { left. apply hex_digit_unreserved. apply N.Div0.div_lt_upper_bound. lia. }
  constructor; [|constructor].
  left. apply hex_digit_unreserved. apply N.mod_lt. discriminate.
Qed.

Lemma utf8_octets cp : cp < 1114112 → Forall (λ o, o < 256) (utf8 cp).
Proof.
  intros Hcp. unfold utf8.
  destruct (N.ltb_spec cp 128); [repeat constructor; lia|].
  destruct (N.ltb_spec cp 2048).
  { repeat constructor.
    - assert (cp / 64 < 32) by (apply N.Div0.div_lt_upper_bound; lia). lia.
    - assert (cp mod 64 < 64) by (apply N.mod_lt; discriminate). lia. }
  destruct (N.ltb_spec cp 65536).
  { repeat constructor.
    - assert (cp / 4096 < 16) by (apply N.Div0.div_lt_upper_bound; lia). lia.
    - assert ((cp / 64) mod 64 < 64) by (apply N.mod_lt; discriminate). lia.
    - assert (cp mod 64 < 64) by (apply N.mod_lt; discriminate). lia. }
  repeat constructor.
  - assert (cp / 262144 < 5) by (apply N.Div0.div_lt_upper_bound; lia). lia.
  - assert ((cp / 4096) mod 64 < 64) by (apply N.mod_lt; discriminate). lia.
  - assert ((cp / 64) mod 64 < 64) by (apply N.mod_lt; discriminate). lia.
  - assert (cp mod 64 < 64) by (apply N.mod_lt; discriminate). lia.
Qed.

Lemma escape_safe cp : cp < 1114112 → Forall url_safe (escape cp).
Proof.
  intros Hcp. unfold escape.
  pose proof (utf8_octets cp Hcp) as Ho.
  induction Ho as [|o l Ho Hl IH]; [constructor|].
  change (Forall url_safe (percent o ++ concat (List.map percent l))).
  apply Forall_app. split; [apply percent_safe; exact Ho | exact IH].
Qed.

Lemma encodeURIComponent_safe (n : nat) : ∀ s t,
  (length s ≤ n)%nat → code_units s → encodeURIComponent s = Ok t →
  Forall url_safe t.
Proof.
  induction n as [|n IH]; intros [|c r] t Hn Hs; cbn [encodeURIComponent].
  1, 3: intros [= <-]; constructor.
  1: simpl in Hn; lia.
  simpl in Hn. inversion Hs as [|? ? Hc Hr]; subst.
  destruct (is_uri_unreserved c) eqn:Hu.
  { destruct (encodeURIComponent r) as [t'|] eqn:Hr'; [|discriminate].
    intros [= <-]. constructor; [left; exact Hu|].
    apply (IH r); [lia | exact Hr | exact Hr']. }
  destruct (is_low_surrogate c); [discriminate|].
  destruct (is_high_surrogate c) eqn:Hh.
  - destruct r as [|lo r']; [discriminate|].
    destruct (is_low_surrogate lo) eqn:Hl; [|discriminate].
    destruct (encodeURIComponent r') as [t'|] eqn:Hr'; [|discriminate].
    intros [= <-]. inversion Hr as [|? ? Hlo Hr'']; subst.
    apply Forall_app. split.
    + apply escape_safe.
      unfold is_high_surrogate, is_low_surrogate in *.
      apply andb_true_iff in Hh as [Hh1 Hh2], Hl as [Hl1 Hl2].
      apply N.leb_le in Hh1, Hh2, Hl1, Hl2. lia.
    + apply (IH r'); [simpl in Hn; lia | exact Hr'' | exact Hr'].
  - destruct (encodeURIComponent r) as [t'|] eqn:Hr'; [|discriminate].
    intros [= <-]. apply Forall_app. split.
    + apply escape_safe. lia.
    + apply (IH r); [lia | exact Hr | exact Hr'].
Qed.

Lemma encodeURIComponent_error s e : encodeURIComponent s = Throw e → e = malformed.
Proof.
  remember (length s) as n eqn:Hn. revert s e Hn.
  induction n as [n IH] using lt_wf_ind. intros [|c r] e Hn; cbn [encodeURIComponent].
  - discriminate.
  - simpl in Hn.
    destruct (is_uri_unreserved c).
    { destruct (encodeURIComponent r) eqn:Hr; [discriminate|].
      intros [= <-]. apply (IH (length r)) with (s := r); [lia | reflexivity | exact Hr]. }
    destruct (is_low_surrogate c); [intros [= <-]; reflexivity|].
    destruct (is_high_surrogate c).
    + destruct r as [|lo r']; [intros [= <-]; reflexivity|].
      destruct (is_low_surrogate lo); [|intros [= <-]; reflexivity].
      destruct (encodeURIComponent r') eqn:Hr; [discriminate|].
      intros [= <-].
      apply (IH (length r')) with (s := r'); [simpl in Hn; lia | reflexivity | exact Hr].
    + destruct (encodeURIComponent r) eqn:Hr; [discriminate|].
      intros [= <-]. apply (IH (length r)) with (s := r); [lia | reflexivity | exact Hr].
Qed.

(** X3. The address never reaches the lookup URL raw. When the query
    encodes, what is put between the fixed prefix and [&rows=5] holds
    unreserved characters and percent escapes only, so no [&], [=], [#],
    [?], [/] or space of the address can alter the URL, and the result of
    the helper depends on the request at that one URL alone.  When the query
    does not encode (a lone surrogate), the helper throws the URI error
    whatever the request would answer. *)
Theorem pdokLookupPostalCode_url (street houseNumber city : jsstring) :
  code_units street → code_units houseNumber → code_units city →
  match encodeURIComponent (pdok_query street houseNumber city) with
  | Ok encoded =>
      Forall url_safe encoded
      ∧ Forall (λ c, c ∉ [38; 61; 35; 63; 47; 32]) encoded
      ∧ ∀ request request' : APIRequestContext,
          request' (pdok_url encoded) = request (pdok_url encoded) →
          pdokLookupPostalCode request' street houseNumber city
          = pdokLookupPostalCode request street houseNumber city
  | Throw e =>
      ∀ request : APIRequestContext,
        pdokLookupPostalCode request street houseNumber city = Throw malformed
  end.
Proof.
  intros Hs Hh Hc.
  assert (Hq : code_units (pdok_query street houseNumber city)).
  { unfold pdok_query, code_units. rewrite !Forall_app.
    repeat split; try assumption; repeat constructor. }
  destruct (encodeURIComponent _) as [encoded|e] eqn:Henc.
  - pose proof (encodeURIComponent_safe _ _ _ (le_n _) Hq Henc) as Hsafe.
    split; [exact Hsafe|]. split.
    + eapply Forall_impl; [exact Hsafe|].
      intros c [Hu | ->] Hin.
      * rewrite !elem_of_cons, elem_of_nil in Hin.
        destruct Hin as [->|[->|[->|[->|[->|[->|[]]]]]]]; discriminate Hu.
      * rewrite !elem_of_cons, elem_of_nil in Hin.
        destruct Hin as [H|[H|[H|[H|[H|[H|[]]]]]]]; discriminate H.
    + intros request request' Hsame.
      unfold pdokLookupPostalCode. rewrite Henc, Hsame. reflexivity.
  - intros request. unfold pdokLookupPostalCode. rewrite Henc.
    f_equal. apply (encodeURIComponent_error _ _ Henc).
Qed.

Lemma pdokLookupPostalCode_url_kerkstraat :
  Forall url_safe (lit "Kerkstraat%2012%2C%20Amsterdam").
Proof.
  refine (proj1 (pdokLookupPostalCode_url (lit "Kerkstraat") (lit "12")
                   (lit "Amsterdam") _ _ _));
    unfold code_units; repeat constructor.
Defined.

(** ** utils/env: what [requireEnv] hands out *)

Lemma trim_start_keeps s :
  (∀ c, head s = Some c → is_ws c = false) → trim_start s = s.
Proof.
  destruct s as [|x r]; simpl; [reflexivity|].
  intros H. rewrite (H x eq_refl). reflexivity.
Qed.

Lemma trim_keeps s :
  (∀ c, head s = Some c → is_ws c = false) →
  (∀ c, last s = Some c → is_ws c = false) →
  trim s = s.
Proof.
  intros Hh Hl. unfold trim, trim_end.
  rewrite (trim_start_keeps s Hh).
  rewrite trim_start_keeps.
  - apply reverse_involutive.
  - intros c. rewrite head_reverse. apply Hl.
Qed.

Lemma trim_idempotent s : trim (trim s) = trim s.
Proof.
  destruct (trim_trimmed s) as (before & after & _ & _ & _ & Hh & Hl).
  apply trim_keeps; assumption.
Qed.

(** X4. A value [requireEnv] returns is not empty and carries no whitespace
    at either end, and trimming it again changes nothing: stored back under
    the same name it is returned as it is.  Setting any other variable does
    not change what is returned for this one. *)
Theorem requireEnv_result (env : gmap jsstring jsstring) (name r : jsstring) :
  requireEnv env name = Ok r →
  r ≠ []
  ∧ (∀ c, head r = Some c → is_ws c = false)
  ∧ (∀ c, last r = Some c → is_ws c = false)
  ∧ requireEnv (<[name := r]> env) name = Ok r
  ∧ ∀ other v, other ≠ name → requireEnv (<[other := v]> env) name = Ok r.
Proof.
  intros Hr.
  assert (Hdef : ∀ env', env' !! name = env !! name →
                         requireEnv env' name = Ok r).
  { intros env' He. unfold requireEnv, env_get in *. rewrite He. exact Hr. }
  unfold requireEnv, env_get in Hr.
  destruct (env !! name) as [v|] eqn:Hv;
    [|case_bool_decide; discriminate Hr].
  destruct (negb (truthy_string v) || negb (truthy_string (trim v))) eqn:Hc;
    [discriminate|].
  injection Hr as <-.
  apply orb_false_iff in Hc as [_ Hc]. apply negb_false_iff in Hc.
  destruct (trim_trimmed v) as (before & after & _ & _ & _ & Hh & Hl).
  split; [intros Hnil; rewrite Hnil in Hc; discriminate|].
  split; [exact Hh|]. split; [exact Hl|]. split.
  - unfold requireEnv, env_get. rewrite lookup_insert_eq.
    rewrite trim_idempotent, Hc. reflexivity.
  - intros other x Hne. apply Hdef. rewrite lookup_insert_ne by exact Hne.
    exact Hv.
Qed.

Lemma requireEnv_login_email :
  lit "a@b.nl" ≠ []
  ∧ (∀ c, head (lit "a@b.nl") = Some c → is_ws c = false)
  ∧ (∀ c, last (lit "a@b.nl") = Some c → is_ws c = false)
  ∧ requireEnv (<[lit "LOGIN_EMAIL" := lit "a@b.nl"]>
                  {[ lit "LOGIN_EMAIL" := lit "  a@b.nl " ++ [10] ]})
      (lit "LOGIN_EMAIL") = Ok (lit "a@b.nl")
  ∧ ∀ other v, other ≠ lit "LOGIN_EMAIL" →
      requireEnv (<[other := v]> {[ lit "LOGIN_EMAIL" := lit "  a@b.nl " ++ [10] ]})
        (lit "LOGIN_EMAIL") = Ok (lit "a@b.nl").
Proof.
  apply (requireEnv_result {[ lit "LOGIN_EMAIL" := lit "  a@b.nl " ++ [10] ]}
           (lit "LOGIN_EMAIL") (lit "a@b.nl")).
  unfold requireEnv, env_get. rewrite lookup_singleton_eq. vm_compute.
  reflexivity.
Defined.

(** ** [formatDateToDutchLocale] on dates *)

Lemma formatDateToDutchLocale_app a b :
  formatDateToDutchLocale (a ++ b)
  = formatDateToDutchLocale a ++ formatDateToDutchLocale b.
Proof.
  unfold formatDateToDutchLocale.
  induction a as [|x a IH]; simpl; [reflexivity|].
  destruct (x =? dot); simpl; f_equal; exact IH.
Qed.

(** X5. [formatDateToDutchLocale] works piece by piece: the result for a
    concatenation is the concatenation of the results.  So a date written
    day, dot, month, dot, year with no dot inside the three parts comes out
    as day, dash, month, dash, year with the parts untouched; and no result
    ever holds a dot. *)
Theorem formatDateToDutchLocale_pieces (a b day month year : jsstring) :
  formatDateToDutchLocale (a ++ b)
  = formatDateToDutchLocale a ++ formatDateToDutchLocale b
  ∧ (dot ∉ formatDateToDutchLocale a)
  ∧ (dot ∉ day → dot ∉ month → dot ∉ year →
     formatDateToDutchLocale (day ++ [dot] ++ month ++ [dot] ++ year)
     = day ++ [dash] ++ month ++ [dash] ++ year).
Proof.
  split; [apply formatDateToDutchLocale_app|]. split.
  - unfold formatDateToDutchLocale.
    induction a as [|x a IH]; simpl; [apply not_elem_of_nil|].
    destruct (N.eqb_spec x dot) as [->|Hx]; simpl;
      rewrite not_elem_of_cons; split; try exact IH.
    + discriminate.
    + congruence.
  - intros Hd Hm Hy.
    rewrite !formatDateToDutchLocale_app.
    rewrite (replace_dot_id day Hd), (replace_dot_id month Hm),
      (replace_dot_id year Hy).
    reflexivity.
Qed.

Lemma formatDateToDutchLocale_new_year :
  formatDateToDutchLocale (lit "01" ++ [dot] ++ lit "01" ++ [dot] ++ lit "2026")
  = lit "01" ++ [dash] ++ lit "01" ++ [dash] ++ lit "2026".
Proof.
  apply (proj2 (proj2 (formatDateToDutchLocale_pieces [] [] (lit "01") (lit "01")
                         (lit "2026")))).
  all: vm_compute; intros H; repeat (inversion H as [|? ? ? H']; clear H; rename H' into H).
Defined.

(** ** What the helpers log, whatever happens *)

Lemma logs_only_ret {B A} (P : Event → Prop) (a : A) : logs_only (B:=B) P (ret a).
Proof. intros st. exists []. rewrite app_nil_r. split; [reflexivity | constructor]. Qed.

Lemma logs_only_bind {B A C} (P : Event → Prop) (m : M B A) (k : A → M B C) :
  logs_only P m → (∀ a, logs_only P (k a)) → logs_only P (bind m k).
Proof.
  intros Hm Hk st. unfold bind.
  destruct (Hm st) as (new & Ht & Hp).
  destruct (m st) as [[a|e] st1]; cbn [snd] in *.
  - destruct (Hk a st1) as (new' & Ht' & Hp').
    exists (new ++ new'). rewrite Ht', Ht, <- app_assoc.
    split; [reflexivity | apply Forall_app; auto].
  - exists new. auto.
Qed.

Lemma logs_only_try_catch {B A} (P : Event → Prop) (body handler : M B A) :
  logs_only P body → logs_only P handler → logs_only P (try_catch body handler).
Proof.
  intros Hb Hh st. unfold try_catch.
  destruct (Hb st) as (new & Ht & Hp).
  destruct (body st) as [[a|e] st1]; cbn [snd] in *.
  - exists new. auto.
  - destruct (Hh st1) as (new' & Ht' & Hp').
    exists (new ++ new'). rewrite Ht', Ht, <- app_assoc.
    split; [reflexivity | apply Forall_app; auto].
Qed.

Lemma logs_only_perform {B} (P : Event → Prop) (a : Action) :
  (∀ r, P (EAct a r)) → logs_only (B:=B) P (perform a).
Proof.
  intros Hp st. unfold perform.
  destruct (act B a (world st)) as [r w]. cbn [snd trace].
  eexists. split; [reflexivity|]. repeat constructor. apply Hp.
Qed.

Lemma logs_only_input_value {B} (P : Event → Prop) (l : Locator) :
  (∀ r, P (EInputValue l r)) → logs_only (B:=B) P (input_value l).
Proof.
  intros Hp st. unfold input_value.
  destruct (inputValue B l (world st)) as [r w]. cbn [snd trace].
  eexists. split; [reflexivity|]. repeat constructor. apply Hp.
Qed.

Lemma logs_only_get_attribute {B} (P : Event → Prop) (l : Locator) name :
  (∀ r, P (EGetAttribute l name r)) → logs_only (B:=B) P (get_attribute l name).
Proof.
  intros Hp st. unfold get_attribute.
  destruct (getAttribute B l name (world st)) as [r w]. cbn [snd trace].
  eexists. split; [reflexivity|]. repeat constructor. apply Hp.
Qed.

Lemma logs_only_console_log {B} (P : Event → Prop) msg :
  P (ELog msg) → logs_only (B:=B) P (console_log msg).
Proof.
  intros Hp st. unfold console_log. cbn [snd trace].
  eexists. split; [reflexivity|]. repeat constructor. exact Hp.
Qed.

Ltac unfold_elements :=
  unfold waitAfterOpenForm, clickProceed, waitForStableLoad,
    setCheckboxByLabel, setCheckboxByLabel_role, setCheckboxByLabel_label,
    setCheckboxByLabel_component, setCheckboxByLabel_rawdom,
    setRadioByLabel, setRadioByLabel_role, setRadioByLabel_component,
    setRadioByLabel_fallback,
    selectMatOptionByLabel, selectMatOptionByLabel_accessible,
    selectMatOptionByLabel_component, selectMatOptionByLabel_rawdom,
    fillTextByLabel, fillTextByLabel_accessible, fillTextByLabel_rawdom,
    setInputValue, selectMatOption, selectMatOption_role, selectMatOption_mat,
    selectMatOption_text, try_return, catch_ignore;
  cbv zeta.

(** Walks a helper call by call and leaves one goal per call logged. *)
Ltac walk_log :=
  unfold_elements;
  repeat first
    [ apply logs_only_ret
    | apply logs_only_bind; [|intros ?]
    | apply logs_only_try_catch
    | apply logs_only_perform; intros ?
    | apply logs_only_input_value; intros ?
    | apply logs_only_get_attribute; intros ?
    | apply logs_only_console_log
    | match goal with
      | |- logs_only _ (if ?b then _ else _) => destruct b
      | |- logs_only _ (match ?o with Some _ => _ | None => _ end) =>
          destruct o as [[|? ?]|]
      end ].

(** X6. [fillTextByLabel] sends nothing into the page but [value], and the
    empty string when it clears the field before typing: every fill and
    every keystroke sequence it issues, on any page and on whichever field,
    carries one of the two.  With the date helper in front, as the flow
    calls it for the posting dates, nothing written holds a dot. *)
Theorem fillTextByLabel_writes (B : Browser) (labelText value date : jsstring) :
  logs_only (B:=B) (λ ev, ∀ v, written ev = Some v → v = value ∨ v = [])
    (fillTextByLabel labelText value)
  ∧ logs_only (B:=B) (λ ev, ∀ v, written ev = Some v → dot ∉ v)
      (fillTextByLabel labelText (formatDateToDutchLocale date)).
Proof.
  split.
  - walk_log. all: intros v; cbn [written]; try discriminate.
    all: intros [= <-]; auto.
  - walk_log. all: intros v; cbn [written]; try discriminate.
    all: intros [= <-]; first [ apply replace_dot_no_dot | apply not_elem_of_nil ].
Qed.

(** X7. Picking an option, proceeding and waiting never alter what a
    control holds: [selectMatOption], [selectMatOptionByLabel],
    [clickProceed] and [waitAfterOpenForm] issue no fill, no keystroke, no
    key press and no check, on any page and whether they return or throw.
    [setRadioByLabel] and [setCheckboxByLabel] never send text or press a
    key. *)
Theorem helpers_do_not_type (B : Browser) (labelText optionText : jsstring)
    (groupLabel checkboxLabel : TextMatcher) :
  logs_only (B:=B) (λ ev, is_input ev = false) (selectMatOption optionText)
  ∧ logs_only (B:=B) (λ ev, is_input ev = false)
      (selectMatOptionByLabel labelText optionText)
  ∧ logs_only (B:=B) (λ ev, is_input ev = false) (clickProceed labelText)
  ∧ logs_only (B:=B) (λ ev, is_input ev = false) waitAfterOpenForm
  ∧ logs_only (B:=B)
      (λ ev, written ev = None ∧ ∀ l key r, ev ≠ EAct (Press l key) r)
      (setRadioByLabel groupLabel optionText)
  ∧ logs_only (B:=B)
      (λ ev, written ev = None ∧ ∀ l key r, ev ≠ EAct (Press l key) r)
      (setCheckboxByLabel checkboxLabel).
Proof.
  repeat split.
  all: walk_log.
  all: try reflexivity.
  all: split; [reflexivity | discriminate].
Qed.

(** X8. [clickProceed] touches one element only: every call it issues on an
    element, assertion, scroll, click or DOM click, is issued on the last
    button with the given name, on any page and whether it returns or
    throws. *)
Theorem clickProceed_one_button (B : Browser) (buttonText : jsstring) :
  logs_only (B:=B)
    (λ ev, ∀ l, event_locator ev = Some l → l = proceed_button buttonText)
    (clickProceed buttonText).
Proof.
  walk_log.
  all: intros l; cbn [event_locator]; try discriminate.
  all: intros [= <-]; reflexivity.
Qed.

(** ** The order of the calls in [setInputValue] *)

Ltac split_log :=
  first [ exists []; reflexivity
        | eexists [_]; reflexivity
        | eexists [_; _]; reflexivity
        | eexists [_; _; _]; reflexivity
        | eexists [_; _; _; _]; reflexivity
        | eexists [_; _; _; _; _]; reflexivity
        | eexists [_; _; _; _; _; _]; reflexivity ].

(** X9. In [setInputValue] every call is issued on the input it was given.
    The Tab press comes only right after the assertion of equality has
    passed, and it is the last call.  Keys are typed only right after an
    emptying fill that resolved, itself right after a read-back that
    differs from the value; when the read-back equals the value, no key is
    typed. *)
Theorem setInputValue_order (B : Browser) (input : Locator) (value : jsstring)
    (st : St B) :
  ∃ new,
    trace (snd (setInputValue input value st)) = trace st ++ new
    ∧ Forall (λ ev, event_locator ev = Some input) new
    ∧ (∀ r, EAct (Press input (lit "Tab")) r ∈ new →
         ∃ before,
           new = before ++ [ EAct (ExpectToHaveValue input value) (Ok tt);
                             EAct (Press input (lit "Tab")) r ])
    ∧ (∀ r, EAct (PressSequentially input value) r ∈ new →
         ∃ current, current ≠ value
           ∧ ∃ before after,
               new = before ++ [ EInputValue input (Ok current);
                                 EAct (Fill input []) (Ok tt);
                                 EAct (PressSequentially input value) r ] ++ after)
    ∧ (EInputValue input (Ok value) ∈ new →
         Forall (λ ev, ∀ l v r, ev ≠ EAct (PressSequentially l v) r) new).
Proof.
  unfold setInputValue. open_calls. run_page.
  all: try case_bool_decide; run_page.
  all: rewrite <- ?app_assoc; cbn [app].
  all: eexists; split; [reflexivity|].
  all: split; [repeat constructor|].
  all: split; [intros r' Hin; not_in_log; try (injection Hin as <-); split_log|].
  all: split.
  all: try (intros r0 Hin; not_in_log; fail).
  all: try (intros r0 Hin; not_in_log; try (injection Hin as <-);
            eexists; split; [eassumption|];
            first [ exists []; split_log
                  | eexists [_]; split_log
                  | eexists [_; _]; split_log
                  | eexists [_; _; _]; split_log ]).
  all: intros Hin.
  all: try (not_in_log; injection Hin as Heq; congruence).
  all: repeat constructor; discriminate.
Qed.

(** ** What a helper has done when it throws *)

Ltac split_last :=
  first [ exists []; eexists; split; [reflexivity|]
        | eexists [_]; eexists; split; [reflexivity|]
        | eexists [_; _]; eexists; split; [reflexivity|]
        | eexists [_; _; _]; eexists; split; [reflexivity|]
        | eexists [_; _; _; _]; eexists; split; [reflexivity|]
        | eexists [_; _; _; _; _]; eexists; split; [reflexivity|]
        | eexists [_; _; _; _; _; _]; eexists; split; [reflexivity|]
        | eexists [_; _; _; _; _; _; _]; eexists; split; [reflexivity|] ].

Lemma selectMatOption_rejects {B : Browser} (optionText : jsstring)
    (st st' : St B) e :
  selectMatOption optionText st = (Throw e, st') →
  ∃ before ev,
    trace st' = trace st ++ before ++ [ev]
    ∧ event_error ev = Some e
    ∧ last (option_locators optionText) = event_locator ev
    ∧ Forall (λ ev', is_ok_click ev' = false) (before ++ [ev])
    ∧ Forall (λ l, ∃ r, EAct (WaitForVisible l 1000) r ∈ before ++ [ev])
        (option_locators optionText).
Proof.
  unfold selectMatOption, selectMatOption_role, selectMatOption_mat,
    selectMatOption_text.
  open_helpers. run_page.
  all: intros H; try discriminate H; injection H as <- <-; cbn [trace].
  all: rewrite <- ?app_assoc; cbn [app].
  all: split_last.
  all: split; [reflexivity|split; [reflexivity|split; [repeat constructor|]]].
  all: unfold option_locators; repeat constructor.
  all: eexists; cbn [app]; in_list.
Qed.

(** X10. [selectMatOption] addresses nothing but its three option locators,
    and it returns exactly when one click resolved: that click is then the
    last call.  When it throws, it has waited for each of the three
    locators, no click resolved, and the rejection is that of its last
    call, issued on the text locator. *)
Theorem selectMatOption_outcome (B : Browser) (optionText : jsstring) (st : St B) :
  ∃ new,
    trace (snd (selectMatOption optionText st)) = trace st ++ new
    ∧ Forall (λ ev, ∃ l, l ∈ option_locators optionText
                         ∧ event_locator ev = Some l) new
    ∧ (fst (selectMatOption optionText st) = Ok tt
       ↔ Exists (λ ev, is_ok_click ev = true) new)
    ∧ (fst (selectMatOption optionText st) = Ok tt →
       ∃ ev, last new = Some ev ∧ List.filter is_ok_click new = [ev])
    ∧ (∀ e, fst (selectMatOption optionText st) = Throw e →
         Forall (λ l, ∃ r, EAct (WaitForVisible l 1000) r ∈ new)
           (option_locators optionText)
         ∧ ∃ ev, last new = Some ev ∧ event_error ev = Some e
                 ∧ last (option_locators optionText) = event_locator ev).
Proof.
  destruct (selectMatOption optionText st) as [[[]|e] st'] eqn:Hrun;
    cbn [fst snd].
  - destruct (selectMatOption_ok _ _ _ Hrun)
      as (lo & to & evs & Hl & _ & Ht & Hf & Hlast).
    exists evs. split; [exact Ht|].
    split; [|split; [|split]].
    + revert Hrun Ht.
      unfold selectMatOption, selectMatOption_role, selectMatOption_mat,
        selectMatOption_text.
      open_helpers. run_page.
      all: intros H; try discriminate H; injection H as <-; cbn [trace].
      all: rewrite <- ?app_assoc; cbn [app].
      all: intros Ht; apply app_inv_head in Ht; subst evs.
      all: unfold option_locators; repeat constructor.
      all: eexists; split; [|reflexivity]; in_list.
    + split; [intros _|reflexivity].
      apply Exists_exists. exists (EAct (Click lo to) (Ok tt)).
      split; [|reflexivity].
      apply last_Some_elem_of, Hlast.
    + intros _. eauto.
    + discriminate.
  - destruct (selectMatOption_rejects _ _ _ _ Hrun)
      as (before & ev & Ht & He & Hl & Hc & Hw).
    exists (before ++ [ev]). split; [exact Ht|].
    split; [|split; [|split]].
    + revert Hrun Ht.
      unfold selectMatOption, selectMatOption_role, selectMatOption_mat,
        selectMatOption_text.
      open_helpers. run_page.
      all: intros H; try discriminate H; injection H as <- <-; cbn [trace].
      all: rewrite <- ?app_assoc; cbn [app].
      all: intros Ht; apply app_inv_head in Ht; rewrite <- Ht.
      all: unfold option_locators; repeat constructor.
      all: eexists; split; [|reflexivity]; in_list.
    + split; [discriminate|].
      intros Hex. apply Exists_exists in Hex as (x & Hin & Hx).
      rewrite Forall_forall in Hc. rewrite (Hc x Hin) in Hx. discriminate.
    + discriminate.
    + intros e' [= <-]. split; [exact Hw|].
      exists ev. rewrite last_snoc. auto.
Qed.

Ltac run_fill :=
  repeat first
    [ progress run_page
    | case_bool_decide ].

(** X11. When [fillTextByLabel] throws, exactly two calls rejected besides
    Tab presses, one in each strategy: the first on the field found by its
    accessible label, the second the last call of the helper, whose
    rejection is the one thrown.  That last call is issued on the label
    found by its text or on the input derived from it, and it is never the
    Tab press. *)
Theorem fillTextByLabel_throws (B : Browser) (labelText value : jsstring)
    (st : St B) (e : exn)
    (Hthrow : fst (fillTextByLabel labelText value st) = Throw e) :
  ∃ new failed ev,
    trace (snd (fillTextByLabel labelText value st)) = trace st ++ new
    ∧ last new = Some ev
    ∧ event_error ev = Some e
    ∧ List.filter (λ x, is_rejected x && negb (is_press x)) new = [failed; ev]
    ∧ event_locator failed = Some (GetByLabel Page (MStr labelText) true)
    ∧ (event_locator ev = Some (label_has_text labelText)
       ∨ ∃ forAttr,
           EGetAttribute (label_has_text labelText) (lit "for") (Ok forAttr)
             ∈ new
           ∧ event_locator ev
             = Some (fillTextByLabel_input (label_has_text labelText) forAttr)).
Proof.
  revert Hthrow.
  unfold fillTextByLabel, fillTextByLabel_accessible, fillTextByLabel_rawdom.
  open_helpers. run_fill.
  all: intros Hthrow; try discriminate Hthrow; injection Hthrow as <-.
  all: rewrite <- ?app_assoc; cbn [app].
  all: eexists _, _, _; split; [reflexivity|].
  all: split; [reflexivity|].
  all: split; [reflexivity|split; [reflexivity|split; [reflexivity|]]].
  all: first [ left; reflexivity
             | right; eexists; split; [in_list | reflexivity] ].
Qed.

Lemma fillTextByLabel_nothing_answers :
  ∃ new failed ev,
    trace (snd (fillTextByLabel (lit "City") (lit "Utrecht") (on_script [])))
    = [] ++ new
    ∧ last new = Some ev
    ∧ event_error ev = Some (Rejected (lit "Timeout exceeded"))
    ∧ List.filter (λ x, is_rejected x && negb (is_press x)) new = [failed; ev]
    ∧ event_locator failed = Some (GetByLabel Page (MStr (lit "City")) true)
    ∧ (event_locator ev = Some (label_has_text (lit "City"))
       ∨ ∃ forAttr,
           EGetAttribute (label_has_text (lit "City")) (lit "for") (Ok forAttr)
             ∈ new
           ∧ event_locator ev
             = Some (fillTextByLabel_input (label_has_text (lit "City")) forAttr)).
Proof.
  apply (fillTextByLabel_throws scripted (lit "City") (lit "Utrecht")
           (on_script [])).
  reflexivity.
Defined.

(** X12. The log of a [setCheckboxByLabel] that throws holds no check and
    no click that resolved.  It starts with the two checks by role and by
    label, both rejected, and the rejection thrown is that of its last
    call, which is issued on the label found by its text: the wait for it,
    the read of its [for] attribute or the click on it, never a check.
    (What a rejected call did to the page the log does not tell.) *)
Theorem setCheckboxByLabel_throws (B : Browser) (labelText : TextMatcher)
    (st : St B) (e : exn)
    (Hthrow : fst (setCheckboxByLabel labelText st) = Throw e) :
  ∃ e1 e2 rest ev,
    trace (snd (setCheckboxByLabel labelText st))
    = trace st
      ++ EAct (Check (GetByRole Page (lit "checkbox") labelText false)
                 (Some 1000%Z)) (Throw e1)
      :: EAct (Check (GetByLabel Page labelText true) (Some 1000%Z)) (Throw e2)
      :: rest
    ∧ last rest = Some ev
    ∧ event_error ev = Some e
    ∧ event_locator ev = Some (checkbox_raw_label labelText)
    ∧ (∀ l t r, ev ≠ EAct (Check l t) r)
    ∧ Forall (λ x, is_ok_click x = false ∧ ∀ l t, x ≠ EAct (Check l t) (Ok tt))
        rest.
Proof.
  revert Hthrow.
  unfold setCheckboxByLabel, setCheckboxByLabel_role, setCheckboxByLabel_label,
    setCheckboxByLabel_component, setCheckboxByLabel_rawdom.
  open_helpers. run_page.
  all: intros Hthrow; try discriminate Hthrow; injection Hthrow as <-.
  all: rewrite <- ?app_assoc; cbn [app].
  all: eexists _, _, _, _; split; [reflexivity|].
  all: split; [reflexivity|].
  all: split; [reflexivity|split; [reflexivity|split; [discriminate|]]].
  all: repeat constructor; discriminate.
Qed.

Lemma setCheckboxByLabel_nothing_answers :
  ∃ e1 e2 rest ev,
    trace (snd (setCheckboxByLabel (MStr (lit "I agree")) (on_script [])))
    = []
      ++ EAct (Check (GetByRole Page (lit "checkbox") (MStr (lit "I agree")) false)
                 (Some 1000%Z)) (Throw e1)
      :: EAct (Check (GetByLabel Page (MStr (lit "I agree")) true) (Some 1000%Z))
           (Throw e2)
      :: rest
    ∧ last rest = Some ev
    ∧ event_error ev = Some (Rejected (lit "Timeout exceeded"))
    ∧ event_locator ev = Some (checkbox_raw_label (MStr (lit "I agree")))
    ∧ (∀ l t r, ev ≠ EAct (Check l t) r)
    ∧ Forall (λ x, is_ok_click x = false ∧ ∀ l t, x ≠ EAct (Check l t) (Ok tt))
        rest.
Proof.
  apply (setCheckboxByLabel_throws scripted (MStr (lit "I agree"))
           (on_script [])).
  reflexivity.
Defined.

(** X13. How [setRadioByLabel] ends.  It returns in one of three ways: the
    check of the option inside the radio group resolved at once, and the
    option is then checked; or that check rejected, the component was seen
    and the click on its option label resolved, and the helper returns
    without any check having resolved; or the check of the control labelled
    with the option text resolved after it was seen, both without a timeout
    of their own, and that control is then checked.  When it throws, the
    rejection is that of its last call, which is issued on the control
    labelled with the option text. *)
Theorem setRadioByLabel_outcome (B : Browser) (O : CheckObserver B)
    (groupLabel : TextMatcher) (optionText : jsstring) (st : St B) :
  let run := setRadioByLabel groupLabel optionText st in
  let in_group :=
    GetByLabel (GetByRole Page (lit "radiogroup") groupLabel false)
      (MStr optionText) true in
  let container :=
    Loc Page (lit "bq-radio-button") None
      (Some (Loc Page (lit "label") (Some groupLabel) None)) in
  let anywhere := GetByLabel Page (MStr optionText) true in
  ∃ new,
    trace (snd run) = trace st ++ new
    ∧ (fst run = Ok tt →
       (new = [EAct (Check in_group (Some 1000%Z)) (Ok tt)]
        ∧ checked_of (world (snd run)) in_group = Some true)
       ∨ (∃ e1,
            new = [ EAct (Check in_group (Some 1000%Z)) (Throw e1);
                    EAct (WaitForVisible container 1000) (Ok tt);
                    EAct (Click (First (Loc container (lit "label")
                                          (Some (MStr optionText)) None))
                            (Some 1000%Z)) (Ok tt) ])
       ∨ (∃ before,
            new = before ++ [ EAct (ExpectToBeVisible anywhere None) (Ok tt);
                              EAct (Check anywhere None) (Ok tt) ]
            ∧ Forall (λ x, is_ok_click x = false) before
            ∧ checked_of (world (snd run)) anywhere = Some true))
    ∧ (∀ e, fst run = Throw e →
         ∃ ev, last new = Some ev ∧ event_error ev = Some e
               ∧ event_locator ev = Some anywhere
               ∧ Forall (λ x, is_ok_click x = false
                              ∧ ∀ l t, x ≠ EAct (Check l t) (Ok tt)) new).
Proof.
  cbv zeta.
  unfold setRadioByLabel, setRadioByLabel_role, setRadioByLabel_component,
    setRadioByLabel_fallback.
  open_helpers. run_page.
  all: rewrite <- ?app_assoc; cbn [app].
  all: eexists; split; [reflexivity|].
  all: split; [intros Hret; try discriminate Hret
              | intros e' Hthrow; try discriminate Hthrow ].
  all: try (injection Hthrow as <-; eexists;
            split; [reflexivity|split; [reflexivity|split; [reflexivity|]]];
            repeat constructor; discriminate).
  all: first
    [ left; split; [reflexivity | eapply check_sound; eassumption]
    | right; left; eexists; reflexivity
    | right; right;
      first [ eexists [_]; split; [reflexivity|]
            | eexists [_; _]; split; [reflexivity|]
            | eexists [_; _; _]; split; [reflexivity|] ];
      split; [repeat constructor | eapply check_sound; eassumption] ].
Qed.

(** X14. When [clickProceed] throws, the rejection is that of its last
    call, and that call is never the click: the one rejection the helper
    swallows is the click's, and every other call before the last one
    resolved.  When the call that rejected is one of the two waits, the
    button was clicked before, by the click or by the DOM click. *)
Theorem clickProceed_throws (B : Browser) (buttonText : jsstring)
    (st : St B) (e : exn)
    (Hthrow : fst (clickProceed buttonText st) = Throw e) :
  ∃ before ev,
    trace (snd (clickProceed buttonText st)) = trace st ++ before ++ [ev]
    ∧ event_error ev = Some e
    ∧ (∀ l t r, ev ≠ EAct (Click l t) r)
    ∧ Forall (λ x, is_rejected x = true →
                   ∃ e', x = EAct (Click (proceed_button buttonText)
                                     (Some 10000%Z)) (Throw e')) before
    ∧ (event_locator ev = None →
       Exists (λ x, is_click x = true ∧ is_rejected x = false) before).
Proof.
  revert Hthrow. unfold proceed_button. open_helpers. run_page.
  all: intros Hthrow; try discriminate Hthrow; injection Hthrow as <-.
  all: rewrite <- ?app_assoc; cbn [app].
  all: split_last.
  all: split; [reflexivity|split; [discriminate|split]].
  all: try (repeat constructor; cbn; intros Hr; try discriminate Hr;
            eexists; reflexivity).
  all: cbn [event_locator]; intros Hl; try discriminate Hl.
  all: repeat first
         [ apply Exists_cons_hd; split; reflexivity
         | apply Exists_cons_tl ].
Qed.

Lemma clickProceed_page_never_settles :
  ∃ before ev,
    trace (snd (clickProceed (lit "Next")
                  (on_script [true; true; true; false; true; false])))
    = [] ++ before ++ [ev]
    ∧ event_error ev = Some (Rejected (lit "Timeout exceeded"))
    ∧ (∀ l t r, ev ≠ EAct (Click l t) r)
    ∧ Forall (λ x, is_rejected x = true →
                   ∃ e', x = EAct (Click (proceed_button (lit "Next"))
                                     (Some 10000%Z)) (Throw e')) before
    ∧ (event_locator ev = None →
       Exists (λ x, is_click x = true ∧ is_rejected x = false) before).
Proof.
  apply (clickProceed_throws scripted (lit "Next")
           (on_script [true; true; true; false; true; false])).
  reflexivity.
Defined.

(** ** Opening a select without a resolved click on an option *)




(** ** Seen before touched *)

(** X16. [fillTextByLabel] touches no field it has not seen: every click,
    fill, read-back, keystroke, assertion of the value and Tab press it
    issues is on a field for which an assertion of visibility resolved
    earlier in the same call, on any page and whether it returns or
    throws. *)
Theorem fillTextByLabel_sees_first (B : Browser) (labelText value : jsstring)
    (st : St B) :
  ∃ new,
    trace (snd (fillTextByLabel labelText value st)) = trace st ++ new
    ∧ visible_first [] new.
Proof.
  unfold fillTextByLabel, fillTextByLabel_accessible, fillTextByLabel_rawdom.
  open_helpers. run_fill.
  all: rewrite <- ?app_assoc; cbn [app].
  all: eexists; split; [reflexivity|].
  all: cbn [visible_first].
  all: repeat split.
  all: intros lo; cbn [event_locator]; intros [= <-]; in_list.
Qed.

(** ** The proceed helper of the test file *)

(** X17. [clickNext], the proceed helper the test file carries itself,
    clicks the button by role and name with no timeout of its own, not the
    last such button, and asserts nothing before.  It returns exactly when
    the click and the two waits resolved.  When the click rejects, it
    throws that rejection at once: there is no DOM click to fall back on,
    no message and no wait. *)
Theorem clickNext_spec (B : Browser) (buttonText : jsstring) (st : St B) :
  let button := GetByRole Page (lit "button") (MStr buttonText) false in
  ∃ new,
    trace (snd (clickNext buttonText st)) = trace st ++ new
    ∧ (fst (clickNext buttonText st) = Ok tt
       ↔ new = EAct (Click button None) (Ok tt) :: stable_wait)
    ∧ (∀ e, fst (clickNext buttonText st) = Throw e →
         ∃ ev, last new = Some ev ∧ event_error ev = Some e)
    ∧ (∀ e, EAct (Click button None) (Throw e) ∈ new →
         fst (clickNext buttonText st) = Throw e
         ∧ new = [EAct (Click button None) (Throw e)]).
Proof.
  cbv zeta. unfold clickNext, stable_wait. open_helpers. run_page.
  all: rewrite <- ?app_assoc; cbn [app].
  all: eexists; split; [reflexivity|].
  all: split; [split; intros Heq; first [reflexivity | discriminate Heq]|].
  all: split; [intros e' Heq; try discriminate Heq; injection Heq as <-;
               eexists; split; reflexivity|].
  all: intros e' Hin; not_in_log.
  all: injection Hin as <-; split; reflexivity.
Qed.
